(** * Line-coding schemes of [digital_to_digital.py]

    A shallow embedding of the six baseband line codes (NRZ-L, NRZ-I,
    Bipolar-AMI, Pseudoternary, Manchester, Differential Manchester) and
    the properties their specification states about them.

    Python integers are modelled as [Z]; a [list[int]] is a [list Z].
    Every [for x in xs:] loop is a [fold_left] whose accumulator holds the
    local variables the loop body assigns, and [result.append(v)] is
    [result ++ [v]].  The only operation of the module that can raise is
    the subscript [signal[i+1]] of [DifferentialManchester.decode]; it is
    modelled in a small exception monad. *)

From Stdlib Require Import ZArith List Bool Arith Lia.
From Stdlib Require Import Floats.
Import ListNotations.

Open Scope Z_scope.

(** ** The level alphabet (module constants) *)

Definition LOW : Z := -1.
Definition HIGH : Z := 1.
Definition NO_LINE : Z := 0.

(** The expression [HIGH if last_level == LOW else LOW]. *)
Definition toggle (last_level : Z) : Z :=
  if last_level =? LOW then HIGH else LOW.

(** ** Python list primitives used by the decoders *)

(** [range(start, stop, step)] for non-negative bounds and [step > 0]:
    the indices [start <= i < stop] with [i - start] a multiple of [step],
    in increasing order. *)
Definition range (start stop step : nat) : list nat :=
  filter (fun i => Nat.eqb ((i - start) mod step) 0) (seq start (stop - start)).

(** The slice [s[lo:hi]] for [0 <= lo <= hi]; it never raises and is
    clipped to the end of the list. *)
Definition slice {A : Type} (s : list A) (lo hi : nat) : list A :=
  firstn (hi - lo) (skipn lo s).

(** Equality [==] of two integer lists. *)
Definition list_eqb (xs ys : list Z) : bool :=
  if list_eq_dec Z.eq_dec xs ys then true else false.

(** Exceptions and the result of a computation that may raise. *)
Inductive exn : Type := IndexError.

Inductive result (A : Type) : Type :=
| Ok (a : A)
| Raise (e : exn).
Arguments Ok {A} a.
Arguments Raise {A} e.

Definition bind {A B : Type} (m : result A) (k : A -> result B) : result B :=
  match m with
  | Ok a => k a
  | Raise e => Raise e
  end.

Notation "x <- m ;; k" := (bind m (fun x => k))
  (at level 61, m at next level, right associativity).
Notation "' p <- m ;; k" := (bind m (fun x => match x with p => k end))
  (at level 61, p pattern, m at next level, right associativity).

(** The subscript [s[i]] for [i >= 0]: [IndexError] past the end. *)
Definition getitem (s : list Z) (i : nat) : result Z :=
  match nth_error s i with
  | Some x => Ok x
  | None => Raise IndexError
  end.

(** ** The six schemes *)

Module NonReturnToZeroLevel.

Definition encode_body (result : list Z) (bit : Z) : list Z :=
  if bit =? 1 then result ++ [LOW] else result ++ [HIGH].

Definition encode (data : list Z) : list Z :=
  fold_left encode_body data [].

Definition decode_body (result : list Z) (level : Z) : list Z :=
  if level =? LOW then result ++ [1] else result ++ [0].

Definition decode (signal : list Z) : list Z :=
  fold_left decode_body signal [].

End NonReturnToZeroLevel.

Module NonReturnToZeroInverted.

(** Loop state: [(last_level, result)]. *)
Definition encode_body (st : Z * list Z) (bit : Z) : Z * list Z :=
  let '(last_level, result) := st in
  let last_level := if bit =? 1 then toggle last_level else last_level in
  (last_level, result ++ [last_level]).

Definition encode (data : list Z) : list Z :=
  snd (fold_left encode_body data (LOW, [])).

(** Loop state: [(result, previous_level)]. *)
Definition decode_body (st : list Z * Z) (level : Z) : list Z * Z :=
  let '(result, previous_level) := st in
  let result :=
    if negb (level =? previous_level) then result ++ [1] else result ++ [0] in
  (result, level).

Definition decode (signal : list Z) : list Z :=
  fst (fold_left decode_body signal ([], LOW)).

End NonReturnToZeroInverted.

Module BipolarAMI.

Definition encode_body (st : Z * list Z) (bit : Z) : Z * list Z :=
  let '(last_level, result) := st in
  if bit =? 1 then
    let last_level := toggle last_level in
    (last_level, result ++ [last_level])
  else (last_level, result ++ [NO_LINE]).

Definition encode (data : list Z) : list Z :=
  snd (fold_left encode_body data (LOW, [])).

Definition decode_body (result : list Z) (level : Z) : list Z :=
  if level =? NO_LINE then result ++ [0] else result ++ [1].

Definition decode (signal : list Z) : list Z :=
  fold_left decode_body signal [].

(** The loop of [has_violations]: [last_nonzero] is [None] until the
    first pulse; [continue] and the normal end of the body are the
    recursive calls, [return True] the [true] branch, and the [return
    False] after the loop the empty case. *)
Fixpoint has_violations_loop (last_nonzero : option Z) (signal : list Z)
  : bool :=
  match signal with
  | [] => false
  | level :: rest =>
      if level =? NO_LINE then has_violations_loop last_nonzero rest
      else
        match last_nonzero with
        | Some l =>
            if level =? l then true
            else has_violations_loop (Some level) rest
        | None => has_violations_loop (Some level) rest
        end
  end.

Definition has_violations (signal : list Z) : bool :=
  has_violations_loop None signal.

End BipolarAMI.

Module Pseudoternary.

Definition encode_body (st : Z * list Z) (bit : Z) : Z * list Z :=
  let '(last_level, result) := st in
  if bit =? 0 then
    let last_level := toggle last_level in
    (last_level, result ++ [last_level])
  else (last_level, result ++ [NO_LINE]).

Definition encode (data : list Z) : list Z :=
  snd (fold_left encode_body data (LOW, [])).

Definition decode_body (result : list Z) (level : Z) : list Z :=
  if level =? NO_LINE then result ++ [1] else result ++ [0].

Definition decode (signal : list Z) : list Z :=
  fold_left decode_body signal [].

Fixpoint has_violations_loop (last_nonzero : option Z) (signal : list Z)
  : bool :=
  match signal with
  | [] => false
  | level :: rest =>
      if level =? NO_LINE then has_violations_loop last_nonzero rest
      else
        match last_nonzero with
        | Some l =>
            if level =? l then true
            else has_violations_loop (Some level) rest
        | None => has_violations_loop (Some level) rest
        end
  end.

Definition has_violations (signal : list Z) : bool :=
  has_violations_loop None signal.

End Pseudoternary.

Module Manchester.

(** [result.extend([a, b])] is [result ++ [a; b]]. *)
Definition encode_body (result : list Z) (bit : Z) : list Z :=
  if bit =? 1 then result ++ [LOW; HIGH] else result ++ [HIGH; LOW].

Definition encode (data : list Z) : list Z :=
  fold_left encode_body data [].

Definition decode_body (signal : list Z) (result : list Z) (i : nat)
  : list Z :=
  let pair := slice signal i (i + 2) in
  if list_eqb pair [LOW; HIGH] then result ++ [1] else result ++ [0].

Definition decode (signal : list Z) : list Z :=
  fold_left (decode_body signal) (range 0 (length signal) 2) [].

End Manchester.

Module DifferentialManchester.

Definition encode_body (st : Z * list Z) (bit : Z) : Z * list Z :=
  let '(last_level, result) := st in
  let last_level := if bit =? 0 then toggle last_level else last_level in
  let result := result ++ [last_level] in
  let last_level := toggle last_level in
  (last_level, result ++ [last_level]).

Definition encode (data : list Z) : list Z :=
  snd (fold_left encode_body data (LOW, [])).

(** Loop state: [(result, previous_level)], or the exception that left
    the loop.  [signal[i]] is read first, then the bit is appended, then
    [signal[i+1]] is read. *)
Definition decode_body (signal : list Z) (st : result (list Z * Z))
    (i : nat) : result (list Z * Z) :=
  '(result, previous_level) <- st ;;
  first_half <- getitem signal i ;;
  let result :=
    if negb (first_half =? previous_level)
    then result ++ [0] else result ++ [1] in
  previous_level <- getitem signal (i + 1) ;;
  Ok (result, previous_level).

Definition decode (signal : list Z) : result (list Z) :=
  '(result, _) <-
    fold_left (decode_body signal) (range 0 (length signal) 2)
              (Ok ([], LOW)) ;;
  Ok result.

End DifferentialManchester.

(** ** Vocabulary of the specification *)

(** A bit is [0] or [1]; a level is [HIGH], [LOW] or [NO_LINE]. *)
Definition is_bit (x : Z) : Prop := x = 0 \/ x = 1.
Definition bits (b : list Z) : Prop := Forall is_bit b.

Definition is_level (x : Z) : Prop := x = HIGH \/ x = LOW \/ x = NO_LINE.
Definition levels (s : list Z) : Prop := Forall is_level s.

(** The number of elements of [b] equal to the bit [v]. *)
Definition count_bit (v : Z) (b : list Z) : nat := count_occ Z.eq_dec b v.

(** The complemented sequence [[1 - x for x in b]]. *)
Definition complement (b : list Z) : list Z := map (fun x => 1 - x) b.

(** What is left of a level sequence once [NO_LINE] is ignored. *)
Definition pulses (s : list Z) : list Z :=
  filter (fun level => negb (level =? NO_LINE)) s.

(** Two consecutive elements of [p] are equal. *)
Definition repeated_pulse (p : list Z) : Prop :=
  exists before x after, p = before ++ x :: x :: after.

(** A level that is a pulse of a two-level code: [HIGH] or [LOW]. *)
Definition is_high_or_low (x : Z) : Prop := x = HIGH \/ x = LOW.

(** The first level of [s] that is not [NO_LINE], if there is one. *)
Definition first_pulse (s : list Z) : option Z :=
  find (fun level => negb (level =? NO_LINE)) s.

(** How an out-of-alphabet value is read by a test [bit == 1] with a
    default branch, and by a test [bit == 0] with a default branch. *)
Definition read_one_else_zero (x : Z) : Z := if x =? 1 then 1 else 0.
Definition read_zero_else_one (x : Z) : Z := if x =? 0 then 0 else 1.

(** ** Loops as recursive functions

    A loop that threads a scalar state and appends to [result] computes
    the concatenation of what each iteration appends. *)
Section Loops.

Context {S A B : Type}.
Variable next : S -> A -> S.
Variable out : S -> A -> list B.

Fixpoint emit (s : S) (xs : list A) : list B :=
  match xs with
  | [] => []
  | x :: xs' => out s x ++ emit (next s x) xs'
  end.

End Loops.

(** The per-iteration state update and output of the stateful encoders,
    read off their loop bodies. *)
Definition nrzi_next (last_level bit : Z) : Z :=
  if bit =? 1 then toggle last_level else last_level.

Definition ami_next (last_level bit : Z) : Z :=
  if bit =? 1 then toggle last_level else last_level.

Definition ami_out (last_level bit : Z) : list Z :=
  if bit =? 1 then [toggle last_level] else [NO_LINE].

Definition pseudoternary_next (last_level bit : Z) : Z :=
  if bit =? 0 then toggle last_level else last_level.

Definition pseudoternary_out (last_level bit : Z) : list Z :=
  if bit =? 0 then [toggle last_level] else [NO_LINE].

Definition dm_first_half (last_level bit : Z) : Z :=
  if bit =? 0 then toggle last_level else last_level.

Definition dm_next (last_level bit : Z) : Z :=
  toggle (dm_first_half last_level bit).

Definition dm_out (last_level bit : Z) : list Z :=
  [dm_first_half last_level bit; toggle (dm_first_half last_level bit)].

(** The bit [Manchester.decode] appends for a complete pair [[a, b]], and
    the bit [DifferentialManchester.decode] appends for a first half-level. *)
Definition manchester_bit (a b : Z) : Z :=
  if (a =? LOW) && (b =? HIGH) then 1 else 0.

Definition dm_bit (previous_level first_half : Z) : Z :=
  if negb (first_half =? previous_level) then 0 else 1.

(** The loop of [DifferentialManchester.decode] entered with an arbitrary
    [previous_level]; [decode] is the instance [LOW]. *)
Definition dm_decode_from (previous_level : Z) (signal : list Z)
  : result (list Z) :=
  '(result, _) <-
    fold_left (DifferentialManchester.decode_body signal)
              (range 0 (length signal) 2) (Ok ([], previous_level)) ;;
  Ok result.

(** ** Vocabulary of the further properties *)

(** The signal with the polarity of every level inverted. *)
Definition invert (s : list Z) : list Z := map Z.opp s.

(** The bit sequence with its first bit complemented. *)
Definition flip_first (b : list Z) : list Z :=
  match b with
  | [] => []
  | x :: rest => (1 - x) :: rest
  end.

(** [sum(s)], the DC component of a signal up to scaling. *)
Definition level_sum (s : list Z) : Z := fold_right Z.add 0 s.

(** The state of a loop after its iterations over [xs]. *)
Definition run {S A : Type} (next : S -> A -> S) (s : S) (xs : list A) : S :=
  fold_left next xs s.

(** * Carrier modulation and quantisers

    [digital_to_analog.py] and [analog_to_digital.py] compute with Python
    numbers (floats, and ints where the caller passes them).  Their
    operations are left uninterpreted: a type [num] with the operations the
    code applies, so that what is proved holds of any arithmetic, that of
    IEEE binary64 floats included.  [float_number] below interprets them
    with the kernel's binary64 floats. *)

Class Number (num : Type) : Type := {
  (** [x + y], [x - y], and [x / y] for a divisor that is not zero *)
  num_add : num -> num -> num;
  num_sub : num -> num -> num;
  num_div : num -> num -> num;
  (** [x > y], [x < y], [x == y], [abs(x)] *)
  num_gt : num -> num -> bool;
  num_lt : num -> num -> bool;
  num_eqb : num -> num -> bool;
  num_abs : num -> num;
  (** an [int] used as a number *)
  num_of_int : Z -> num;
  (** [int(x / y)]: [None] when the division or the conversion raises *)
  num_int_div : num -> num -> option Z;
  (** the literals [0.0] and [0.1], and [np.pi] *)
  float_zero : num;
  float_tenth : num;
  np_pi : num
}.

(** A binary64 float as an integer, truncated towards zero ([int(x)]);
    [None] for infinities and NaN, on which [int] raises. *)
Definition float_to_int (x : float) : option Z :=
  match Prim2SF x with
  | S754_zero _ => Some 0
  | S754_finite s m e =>
      let v := if 0 <=? e then Z.pos m * 2 ^ e else Z.pos m / 2 ^ (- e) in
      Some (if s then - v else v)
  | _ => None
  end.

(** An [int] as a binary64 float, for [|z| < 2^63]. *)
Definition float_of_int (z : Z) : float :=
  match z with
  | Z0 => 0%float
  | Zpos _ => PrimFloat.of_uint63 (Uint63.of_Z z)
  | Zneg _ => PrimFloat.opp (PrimFloat.of_uint63 (Uint63.of_Z (- z)))
  end.

#[export] Instance float_number : Number float := {
  num_add := PrimFloat.add;
  num_sub := PrimFloat.sub;
  num_div := PrimFloat.div;
  num_gt x y := PrimFloat.ltb y x;
  num_lt := PrimFloat.ltb;
  num_eqb := PrimFloat.eqb;
  num_abs := PrimFloat.abs;
  num_of_int := float_of_int;
  num_int_div x y :=
    if PrimFloat.eqb y 0%float then None
    else float_to_int (PrimFloat.div x y);
  float_zero := 0%float;
  float_tenth := 0x1.999999999999ap-4%float;
  np_pi := 0x1.921fb54442d18p+1%float
}.

Module Sinusoid.

(** The attributes [A], [f], [phi], [D] of a [Sinusoid] object. *)
Record t (num : Type) : Type := make {
  A : num;
  f : num;
  phi : num;
  D : num
}.
Arguments make {num} A f phi D.
Arguments A {num} _.
Arguments f {num} _.
Arguments phi {num} _.
Arguments D {num} _.

End Sinusoid.

Module ASK.

Record t (num : Type) : Type := make {
  f_c : num;
  A_one : num;
  A_zero : num
}.
Arguments make {num} f_c A_one A_zero.
Arguments f_c {num} _.
Arguments A_one {num} _.
Arguments A_zero {num} _.

(** [Sinusoid(A=..., f=self.f_c, phi=0.0)]; [D] takes its default [0.0]. *)
Definition modulate_body {num : Type} `{Number num} (self : t num)
    (signal_stream : list (Sinusoid.t num)) (bit : Z)
  : list (Sinusoid.t num) :=
  let wave :=
    if bit =? 1
    then Sinusoid.make (A_one self) (f_c self) float_zero float_zero
    else Sinusoid.make (A_zero self) (f_c self) float_zero float_zero in
  signal_stream ++ [wave].

Definition modulate {num : Type} `{Number num} (self : t num)
    (bits : list Z) : list (Sinusoid.t num) :=
  fold_left (modulate_body self) bits [].

Definition threshold {num : Type} `{Number num} (self : t num) : num :=
  num_div (num_add (A_one self) (A_zero self)) (num_of_int 2).

Definition demodulate_body {num : Type} `{Number num} (threshold : num)
    (decoded_bits : list Z) (wave : Sinusoid.t num) : list Z :=
  if num_gt (Sinusoid.A wave) threshold
  then decoded_bits ++ [1] else decoded_bits ++ [0].

Definition demodulate {num : Type} `{Number num} (self : t num)
    (signal_stream : list (Sinusoid.t num)) : list Z :=
  let threshold := threshold self in
  fold_left (demodulate_body threshold) signal_stream [].

End ASK.

Module BFSK.

Record t (num : Type) : Type := make {
  f_zero : num;
  f_one : num;
  A : num
}.
Arguments make {num} f_zero f_one A.
Arguments f_zero {num} _.
Arguments f_one {num} _.
Arguments A {num} _.

Definition modulate_body {num : Type} `{Number num} (self : t num)
    (signal_stream : list (Sinusoid.t num)) (bit : Z)
  : list (Sinusoid.t num) :=
  let wave :=
    if bit =? 1
    then Sinusoid.make (A self) (f_one self) float_zero float_zero
    else Sinusoid.make (A self) (f_zero self) float_zero float_zero in
  signal_stream ++ [wave].

Definition modulate {num : Type} `{Number num} (self : t num)
    (bits : list Z) : list (Sinusoid.t num) :=
  fold_left (modulate_body self) bits [].

Definition demodulate_body {num : Type} `{Number num} (self : t num)
    (decoded_bits : list Z) (wave : Sinusoid.t num) : list Z :=
  if num_eqb (Sinusoid.f wave) (f_one self)
  then decoded_bits ++ [1] else decoded_bits ++ [0].

Definition demodulate {num : Type} `{Number num} (self : t num)
    (signal_stream : list (Sinusoid.t num)) : list Z :=
  fold_left (demodulate_body self) signal_stream [].

End BFSK.

Module BPSK.

Record t (num : Type) : Type := make {
  f_c : num;
  A : num
}.
Arguments make {num} f_c A.
Arguments f_c {num} _.
Arguments A {num} _.

Definition modulate_body {num : Type} `{Number num} (self : t num)
    (signal_stream : list (Sinusoid.t num)) (bit : Z)
  : list (Sinusoid.t num) :=
  let wave :=
    if bit =? 1
    then Sinusoid.make (A self) (f_c self) float_zero float_zero
    else Sinusoid.make (A self) (f_c self) np_pi float_zero in
  signal_stream ++ [wave].

Definition modulate {num : Type} `{Number num} (self : t num)
    (bits : list Z) : list (Sinusoid.t num) :=
  fold_left (modulate_body self) bits [].

Definition demodulate_body {num : Type} `{Number num}
    (decoded_bits : list Z) (wave : Sinusoid.t num) : list Z :=
  if num_lt (num_abs (Sinusoid.phi wave)) float_tenth
  then decoded_bits ++ [1] else decoded_bits ++ [0].

Definition demodulate {num : Type} `{Number num} (self : t num)
    (signal_stream : list (Sinusoid.t num)) : list Z :=
  fold_left demodulate_body signal_stream [].

End BPSK.

Module PCM.

(** The attributes set by [__init__]; [n_bits] is a non-negative int, so
    that [2 ** n_bits] is the int [2 ^ n_bits]. *)
Record t (num : Type) : Type := make {
  n_bits : nat;
  v_min : num;
  v_max : num;
  num_levels : Z;
  step_size : num
}.
Arguments make {num} n_bits v_min v_max num_levels step_size.
Arguments n_bits {num} _.
Arguments v_min {num} _.
Arguments v_max {num} _.
Arguments num_levels {num} _.
Arguments step_size {num} _.

Definition init {num : Type} `{Number num} (n_bits : nat)
    (v_min v_max : num) : t num :=
  let num_levels := 2 ^ Z.of_nat n_bits in
  make n_bits v_min v_max num_levels
       (num_div (num_sub v_max v_min) (num_of_int num_levels)).

(** One iteration of [encode]; [None] once an iteration has raised. *)
Definition encode_body {num : Type} `{Number num} (self : t num)
    (digital_data : option (list Z)) (sample : num) : option (list Z) :=
  match digital_data with
  | None => None
  | Some digital_data =>
      let normalized_val := num_sub sample (v_min self) in
      match num_int_div normalized_val (step_size self) with
      | None => None
      | Some level_index =>
          let level_index :=
            Z.max 0 (Z.min (num_levels self - 1) level_index) in
          Some (digital_data ++ [level_index])
      end
  end.

Definition encode {num : Type} `{Number num} (self : t num)
    (analog_samples : list num) : option (list Z) :=
  fold_left (encode_body self) analog_samples (Some []).

End PCM.

Module DM.

Record t (num : Type) : Type := make { delta : num }.
Arguments make {num} delta.
Arguments delta {num} _.

(** Loop state of [encode]: [(current_staircase_value, binary_stream)]. *)
Definition encode_body {num : Type} `{Number num} (self : t num)
    (st : num * list Z) (sample : num) : num * list Z :=
  let '(current_staircase_value, binary_stream) := st in
  if num_gt sample current_staircase_value
  then (num_add current_staircase_value (delta self), binary_stream ++ [1])
  else (num_sub current_staircase_value (delta self), binary_stream ++ [0]).

Definition encode {num : Type} `{Number num} (self : t num)
    (analog_samples : list num) : list Z :=
  snd (fold_left (encode_body self) analog_samples (float_zero, [])).

(** [current_staircase_value] when the loop of [encode] ends. *)
Definition staircase {num : Type} `{Number num} (self : t num)
    (analog_samples : list num) : num :=
  fst (fold_left (encode_body self) analog_samples (float_zero, [])).

(** Loop state of [decode]: [(reconstructed_signal, current_value)]. *)
Definition decode_body {num : Type} `{Number num} (self : t num)
    (st : list num * num) (bit : Z) : list num * num :=
  let '(reconstructed_signal, current_value) := st in
  let current_value :=
    if bit =? 1 then num_add current_value (delta self)
    else num_sub current_value (delta self) in
  (reconstructed_signal ++ [current_value], current_value).

Definition decode {num : Type} `{Number num} (self : t num)
    (binary_stream : list Z) : list num :=
  fst (fold_left (decode_body self) binary_stream ([], float_zero)).

End DM.

(** The state update and the bit of one iteration of [DM.encode], and the
    state update of one iteration of [DM.decode]. *)
Definition delta_encode_next {num : Type} `{Number num} (self : DM.t num)
    (current sample : num) : num :=
  if num_gt sample current then num_add current (DM.delta self)
  else num_sub current (DM.delta self).

Definition delta_encode_bit {num : Type} `{Number num}
    (current sample : num) : Z :=
  if num_gt sample current then 1 else 0.

Definition delta_decode_next {num : Type} `{Number num} (self : DM.t num)
    (current : num) (bit : Z) : num :=
  if bit =? 1 then num_add current (DM.delta self)
  else num_sub current (DM.delta self).

(** The objects built by the constructors' default arguments, as binary64
    floats: [ASK()], [BFSK()], [BPSK()]. *)
Definition ask_default : ASK.t float :=
  ASK.make 1000%float 1%float 0%float.

Definition bfsk_default : BFSK.t float :=
  BFSK.make 1000%float 2000%float 1%float.

Definition bpsk_default : BPSK.t float :=
  BPSK.make 1000%float 1%float.

Example nrzl_scenario :
  NonReturnToZeroLevel.encode [1; 0; 1; 1; 0] = [LOW; HIGH; LOW; LOW; HIGH].
Proof. reflexivity. Qed.

Example nrzi_scenario :
  NonReturnToZeroInverted.encode [0; 1; 1; 0; 1] = [LOW; HIGH; LOW; LOW; HIGH].
Proof. reflexivity. Qed.

Example ami_scenario :
  BipolarAMI.encode [1; 0; 0; 1; 1] = [HIGH; NO_LINE; NO_LINE; LOW; HIGH].
Proof. reflexivity. Qed.

Example manchester_scenario :
  Manchester.encode [1; 0] = [LOW; HIGH; HIGH; LOW]
  /\ Manchester.decode [LOW; HIGH; HIGH; LOW] = [1; 0].
Proof. split; reflexivity. Qed.

Example diff_manchester_scenario :
  DifferentialManchester.encode [0; 1] = [HIGH; LOW; LOW; HIGH]
  /\ DifferentialManchester.decode [HIGH; LOW; LOW; HIGH] = Ok [0; 1].
Proof. split; reflexivity. Qed.

(** ** Generic loop lemmas *)

Section LoopLemmas.

Context {S A B : Type}.
Variable next : S -> A -> S.
Variable out : S -> A -> list B.

Lemma fold_state_result (body : S * list B -> A -> S * list B) :
  (forall s r x, body (s, r) x = (next s x, r ++ out s x)) ->
  forall xs s r, snd (fold_left body xs (s, r)) = r ++ emit next out s xs.
Proof.
  intros Hbody xs; induction xs as [|x xs IH]; intros s r; simpl.
  - now rewrite app_nil_r.
  - rewrite Hbody, IH, <- app_assoc; reflexivity.
Qed.

Lemma fold_result_state (body : list B * S -> A -> list B * S) :
  (forall s r x, body (r, s) x = (r ++ out s x, next s x)) ->
  forall xs s r, fst (fold_left body xs (r, s)) = r ++ emit next out s xs.
Proof.
  intros Hbody xs; induction xs as [|x xs IH]; intros s r; simpl.
  - now rewrite app_nil_r.
  - rewrite Hbody, IH, <- app_assoc; reflexivity.
Qed.

Lemma emit_length (k : nat) :
  (forall s x, length (out s x) = k) ->
  forall xs s, length (emit next out s xs) = (k * length xs)%nat.
Proof.
  intros Hk xs; induction xs as [|x xs IH]; intros s; simpl.
  - lia.
  - rewrite length_app, Hk, IH; lia.
Qed.

End LoopLemmas.

Lemma fold_result (A B : Type) (f : A -> list B)
    (body : list B -> A -> list B) :
  (forall r x, body r x = r ++ f x) ->
  forall xs r, fold_left body xs r = r ++ flat_map f xs.
Proof.
  intros Hbody xs; induction xs as [|x xs IH]; intros r; simpl.
  - now rewrite app_nil_r.
  - rewrite Hbody, IH, <- app_assoc; reflexivity.
Qed.

(** ** [range(0, n, 2)] and pairwise induction *)

Lemma range_0 : range 0 0 2 = [].
Proof. reflexivity. Qed.

Lemma range_1 : range 0 1 2 = [0%nat].
Proof. reflexivity. Qed.

Lemma even_index_SS (i : nat) :
  Nat.eqb ((S (S i) - 0) mod 2) 0 = Nat.eqb ((i - 0) mod 2) 0.
Proof.
  rewrite !Nat.sub_0_r.
  replace (S (S i)) with (i + 1 * 2)%nat by lia.
  now rewrite Nat.Div0.mod_add.
Qed.

Lemma range_SS (n : nat) :
  range 0 (S (S n)) 2 = 0%nat :: map (fun i => S (S i)) (range 0 n 2).
Proof.
  unfold range. rewrite !Nat.sub_0_r.
  change (seq 0 (S (S n))) with (0 :: 1 :: seq 2 n)%nat.
  rewrite <- !seq_shift, map_map.
  change (filter ?f (0 :: 1 :: ?l))%nat with (0%nat :: filter f l).
  f_equal.
  induction (seq 0 n) as [|i l IH]; [reflexivity|].
  cbn [filter map]. rewrite even_index_SS, IH.
  now destruct (Nat.eqb ((i - 0) mod 2) 0).
Qed.

Lemma list_pair_ind (A : Type) (P : list A -> Prop) :
  P [] -> (forall a, P [a]) -> (forall a b l, P l -> P (a :: b :: l)) ->
  forall l, P l.
Proof.
  intros Hnil Hone Hpair.
  assert (H : forall l, P l /\ forall a, P (a :: l)).
  { induction l as [|x l [IH1 IH2]]; split; auto. }
  intros l; apply H.
Qed.

Lemma flat_map_single (A B : Type) (f : A -> B) (xs : list A) :
  flat_map (fun x => [f x]) xs = map f xs.
Proof. induction xs as [|x xs IH]; simpl; congruence. Qed.

(** ** The loops of the memoryless codecs are maps *)

Lemma nrzl_encode_map (data : list Z) :
  NonReturnToZeroLevel.encode data
  = map (fun bit => if bit =? 1 then LOW else HIGH) data.
Proof.
  unfold NonReturnToZeroLevel.encode.
  rewrite (fold_result _ _ (fun bit => [if bit =? 1 then LOW else HIGH])).
  - apply flat_map_single.
  - intros r x; unfold NonReturnToZeroLevel.encode_body.
    now destruct (x =? 1).
Qed.

Lemma nrzl_decode_map (signal : list Z) :
  NonReturnToZeroLevel.decode signal
  = map (fun level => if level =? LOW then 1 else 0) signal.
Proof.
  unfold NonReturnToZeroLevel.decode.
  rewrite (fold_result _ _ (fun level => [if level =? LOW then 1 else 0])).
  - apply flat_map_single.
  - intros r x; unfold NonReturnToZeroLevel.decode_body.
    now destruct (x =? LOW).
Qed.

Lemma ami_decode_map (signal : list Z) :
  BipolarAMI.decode signal
  = map (fun level => if level =? NO_LINE then 0 else 1) signal.
Proof.
  unfold BipolarAMI.decode.
  rewrite (fold_result _ _ (fun level => [if level =? NO_LINE then 0 else 1])).
  - apply flat_map_single.
  - intros r x; unfold BipolarAMI.decode_body.
    now destruct (x =? NO_LINE).
Qed.

Lemma pseudoternary_decode_map (signal : list Z) :
  Pseudoternary.decode signal
  = map (fun level => if level =? NO_LINE then 1 else 0) signal.
Proof.
  unfold Pseudoternary.decode.
  rewrite (fold_result _ _ (fun level => [if level =? NO_LINE then 1 else 0])).
  - apply flat_map_single.
  - intros r x; unfold Pseudoternary.decode_body.
    now destruct (x =? NO_LINE).
Qed.

Lemma manchester_encode_flat_map (data : list Z) :
  Manchester.encode data
  = flat_map (fun bit => if bit =? 1 then [LOW; HIGH] else [HIGH; LOW]) data.
Proof.
  unfold Manchester.encode.
  rewrite (fold_result _ _
             (fun bit => if bit =? 1 then [LOW; HIGH] else [HIGH; LOW])).
  - reflexivity.
  - intros r x; unfold Manchester.encode_body.
    now destruct (x =? 1).
Qed.

(** ** The loops of the stateful encoders, started in any state *)

Lemma nrzi_encode_emit (data : list Z) :
  NonReturnToZeroInverted.encode data
  = emit nrzi_next (fun s bit => [nrzi_next s bit]) LOW data.
Proof.
  unfold NonReturnToZeroInverted.encode.
  now rewrite (fold_state_result nrzi_next (fun s bit => [nrzi_next s bit])).
Qed.

Lemma nrzi_decode_emit (signal : list Z) :
  NonReturnToZeroInverted.decode signal
  = emit (fun _ level => level)
         (fun previous_level level =>
            [if negb (level =? previous_level) then 1 else 0])
         LOW signal.
Proof.
  unfold NonReturnToZeroInverted.decode.
  rewrite (fold_result_state (fun _ level => level)
             (fun previous_level level =>
                [if negb (level =? previous_level) then 1 else 0])).
  - reflexivity.
  - intros s r x; unfold NonReturnToZeroInverted.decode_body.
    now destruct (negb (x =? s)).
Qed.

Lemma ami_encode_emit (data : list Z) :
  BipolarAMI.encode data = emit ami_next ami_out LOW data.
Proof.
  unfold BipolarAMI.encode.
  rewrite (fold_state_result ami_next ami_out).
  - reflexivity.
  - intros s r x; unfold BipolarAMI.encode_body, ami_next, ami_out.
    now destruct (x =? 1).
Qed.

Lemma pseudoternary_encode_emit (data : list Z) :
  Pseudoternary.encode data
  = emit pseudoternary_next pseudoternary_out LOW data.
Proof.
  unfold Pseudoternary.encode.
  rewrite (fold_state_result pseudoternary_next pseudoternary_out).
  - reflexivity.
  - intros s r x.
    unfold Pseudoternary.encode_body, pseudoternary_next, pseudoternary_out.
    now destruct (x =? 0).
Qed.

Lemma dm_encode_emit (data : list Z) :
  DifferentialManchester.encode data = emit dm_next dm_out LOW data.
Proof.
  unfold DifferentialManchester.encode.
  rewrite (fold_state_result dm_next dm_out).
  - reflexivity.
  - intros s r x.
    unfold DifferentialManchester.encode_body, dm_next, dm_out, dm_first_half.
    now rewrite <- app_assoc.
Qed.

Lemma dm_emit_cons (s x : Z) (rest : list Z) :
  emit dm_next dm_out s (x :: rest)
  = dm_first_half s x :: toggle (dm_first_half s x)
      :: emit dm_next dm_out (toggle (dm_first_half s x)) rest.
Proof. reflexivity. Qed.

(** ** The index loops of the two-levels-per-bit decoders, pair by pair *)

Lemma manchester_decode_map (signal : list Z) :
  Manchester.decode signal
  = map (fun i => if list_eqb (slice signal i (i + 2)) [LOW; HIGH]
                  then 1 else 0)
        (range 0 (length signal) 2).
Proof.
  unfold Manchester.decode.
  rewrite (fold_result _ _
    (fun i => [if list_eqb (slice signal i (i + 2)) [LOW; HIGH]
               then 1 else 0])).
  - apply flat_map_single.
  - intros r i; unfold Manchester.decode_body.
    now destruct (list_eqb (slice signal i (i + 2)) [LOW; HIGH]).
Qed.

Lemma list_eqb_pair (a b : Z) (rest : list Z) :
  list_eqb (slice (a :: b :: rest) 0 (0 + 2)) [LOW; HIGH]
  = (a =? LOW) && (b =? HIGH).
Proof.
  change (slice (a :: b :: rest) 0 (0 + 2)) with [a; b].
  unfold list_eqb.
  destruct (list_eq_dec Z.eq_dec [a; b] [LOW; HIGH]) as [E|N].
  - injection E as -> ->; reflexivity.
  - destruct (Z.eqb_spec a LOW) as [->|]; [|reflexivity].
    destruct (Z.eqb_spec b HIGH) as [->|]; [|reflexivity].
    now contradiction N.
Qed.

Lemma manchester_decode_nil : Manchester.decode [] = [].
Proof. reflexivity. Qed.

Lemma manchester_decode_one (a : Z) : Manchester.decode [a] = [0].
Proof.
  rewrite manchester_decode_map. cbn [length]. rewrite range_1.
  cbn [map]. change (slice [a] 0 (0 + 2)) with [a].
  unfold list_eqb.
  now destruct (list_eq_dec Z.eq_dec [a] [LOW; HIGH]).
Qed.

Lemma manchester_decode_pair (a b : Z) (rest : list Z) :
  Manchester.decode (a :: b :: rest)
  = manchester_bit a b :: Manchester.decode rest.
Proof.
  rewrite !manchester_decode_map. cbn [length]. rewrite range_SS.
  cbn [map]. rewrite list_eqb_pair, map_map.
  unfold manchester_bit. f_equal.
Qed.

Lemma dm_loop_raise (signal : list Z) (e : exn) (idx : list nat) :
  fold_left (DifferentialManchester.decode_body signal) idx (Raise e)
  = Raise e.
Proof. induction idx as [|i idx IH]; simpl; auto. Qed.

Lemma dm_loop_prefix (signal : list Z) (idx : list nat) :
  forall (r : list Z) (p : Z),
    fold_left (DifferentialManchester.decode_body signal) idx (Ok (r, p))
    = '(r', p') <-
        fold_left (DifferentialManchester.decode_body signal) idx
                  (Ok ([], p)) ;;
      Ok (r ++ r', p').
Proof.
  induction idx as [|i idx IH]; intros r p.
  - simpl. now rewrite app_nil_r.
  - cbn [fold_left].
    unfold DifferentialManchester.decode_body at 2 4. cbn [bind].
    destruct (getitem signal i) as [x|e]; cbn [bind];
      [|now rewrite !dm_loop_raise].
    destruct (getitem signal (i + 1)) as [y|e]; cbn [bind];
      [|now rewrite !dm_loop_raise].
    rewrite IH.
    rewrite (IH (if negb (x =? p) then [] ++ [0] else [] ++ [1])).
    destruct (fold_left _ idx (Ok ([], y))) as [[r' p']|e]; cbn [bind];
      [|reflexivity].
    destruct (negb (x =? p)); now rewrite <- app_assoc.
Qed.

Lemma dm_loop_shift (a b : Z) (rest : list Z) (idx : list nat) :
  forall st,
    fold_left (DifferentialManchester.decode_body (a :: b :: rest))
              (map (fun i => S (S i)) idx) st
    = fold_left (DifferentialManchester.decode_body rest) idx st.
Proof.
  induction idx as [|i idx IH]; intros st; [reflexivity|].
  cbn [map fold_left]. rewrite IH. f_equal.
Qed.


Lemma dm_decode_from_one (p a : Z) : dm_decode_from p [a] = Raise IndexError.
Proof. reflexivity. Qed.

Lemma dm_decode_from_pair (p a b : Z) (rest : list Z) :
  dm_decode_from p (a :: b :: rest)
  = r <- dm_decode_from b rest ;; Ok (dm_bit p a :: r).
Proof.
  unfold dm_decode_from. cbn [length]. rewrite range_SS.
  cbn [fold_left]. rewrite dm_loop_shift.
  unfold DifferentialManchester.decode_body at 2. cbn.
  rewrite dm_loop_prefix.
  destruct (fold_left _ _ (Ok ([], b))) as [[r' p']|e]; cbn [bind];
    [|reflexivity].
  unfold dm_bit. now destruct (negb (a =? p)).
Qed.

Lemma dm_decode_is_from_low (signal : list Z) :
  DifferentialManchester.decode signal = dm_decode_from LOW signal.
Proof. reflexivity. Qed.

(** ** Facts about [toggle] and the alphabets *)

Lemma toggle_cases (s : Z) : toggle s = HIGH \/ toggle s = LOW.
Proof. unfold toggle; destruct (s =? LOW); auto. Qed.

Lemma toggle_neq (s : Z) : (toggle s =? s) = false.
Proof.
  unfold toggle. destruct (Z.eqb_spec s LOW) as [->|N]; [reflexivity|].
  apply Z.eqb_neq; unfold LOW in *; lia.
Qed.

Lemma toggle_not_no_line (s : Z) : (toggle s =? NO_LINE) = false.
Proof. destruct (toggle_cases s) as [-> | ->]; reflexivity. Qed.

Lemma bits_inv (x : Z) (b : list Z) :
  bits (x :: b) -> is_bit x /\ bits b.
Proof. intros H; inversion H; auto. Qed.

Ltac bit_cases H :=
  let Hx := fresh "Hx" in
  apply bits_inv in H; destruct H as [Hx H];
  destruct Hx as [-> | ->].

(** ** Round trips, from any encoder state *)

Lemma nrzl_roundtrip (b : list Z) :
  bits b ->
  NonReturnToZeroLevel.decode (NonReturnToZeroLevel.encode b) = b.
Proof.
  intros Hb. rewrite nrzl_encode_map, nrzl_decode_map, map_map.
  induction b as [|x b IH]; [reflexivity|].
  bit_cases Hb; simpl; now rewrite IH.
Qed.

Lemma nrzi_roundtrip_from (b : list Z) :
  bits b ->
  forall s,
    emit (fun _ level => level)
         (fun previous_level level =>
            [if negb (level =? previous_level) then 1 else 0])
         s (emit nrzi_next (fun s bit => [nrzi_next s bit]) s b)
    = b.
Proof.
  induction b as [|x b IH]; intros Hb s; [reflexivity|].
  bit_cases Hb; cbn [emit app]; rewrite IH by assumption;
    unfold nrzi_next; cbn [Z.eqb Pos.eqb].
  - now rewrite Z.eqb_refl.
  - now rewrite toggle_neq.
Qed.

Lemma ami_roundtrip_from (b : list Z) :
  bits b ->
  forall s,
    map (fun level => if level =? NO_LINE then 0 else 1)
        (emit ami_next ami_out s b) = b.
Proof.
  induction b as [|x b IH]; intros Hb s; [reflexivity|].
  bit_cases Hb; cbn [emit]; unfold ami_out at 1; cbn [Z.eqb Pos.eqb app map];
    rewrite IH by assumption.
  - reflexivity.
  - now rewrite toggle_not_no_line.
Qed.

Lemma pseudoternary_roundtrip_from (b : list Z) :
  bits b ->
  forall s,
    map (fun level => if level =? NO_LINE then 1 else 0)
        (emit pseudoternary_next pseudoternary_out s b) = b.
Proof.
  induction b as [|x b IH]; intros Hb s; [reflexivity|].
  bit_cases Hb; cbn [emit]; unfold pseudoternary_out at 1;
    cbn [Z.eqb Pos.eqb app map]; rewrite IH by assumption.
  - now rewrite toggle_not_no_line.
  - reflexivity.
Qed.

Lemma manchester_roundtrip (b : list Z) :
  bits b -> Manchester.decode (Manchester.encode b) = b.
Proof.
  intros Hb. rewrite manchester_encode_flat_map.
  induction b as [|x b IH]; [reflexivity|].
  bit_cases Hb; cbn [flat_map Z.eqb Pos.eqb app];
    rewrite manchester_decode_pair, IH by assumption; reflexivity.
Qed.

Lemma dm_roundtrip_from (b : list Z) :
  bits b ->
  forall s, dm_decode_from s (emit dm_next dm_out s b) = Ok b.
Proof.
  induction b as [|x b IH]; intros Hb s; [reflexivity|].
  bit_cases Hb; rewrite dm_emit_cons, dm_decode_from_pair, IH by assumption;
    cbn [bind]; unfold dm_bit, dm_first_half; cbn [Z.eqb Pos.eqb].
  - now rewrite toggle_neq.
  - now rewrite Z.eqb_refl.
Qed.

(** C1. For every bit sequence [b] over {0,1}, decoding the encoding of
    [b] gives back [b], for each of the six schemes, both encoder and
    decoder starting from state [LOW]. *)
Theorem roundtrip_six_schemes (b : list Z) :
  bits b ->
  NonReturnToZeroLevel.decode (NonReturnToZeroLevel.encode b) = b
  /\ NonReturnToZeroInverted.decode (NonReturnToZeroInverted.encode b) = b
  /\ BipolarAMI.decode (BipolarAMI.encode b) = b
  /\ Pseudoternary.decode (Pseudoternary.encode b) = b
  /\ Manchester.decode (Manchester.encode b) = b
  /\ DifferentialManchester.decode (DifferentialManchester.encode b) = Ok b.
Proof.
  intros Hb. repeat split.
  - now apply nrzl_roundtrip.
  - rewrite nrzi_encode_emit, nrzi_decode_emit.
    now apply nrzi_roundtrip_from.
  - rewrite ami_encode_emit, ami_decode_map. now apply ami_roundtrip_from.
  - rewrite pseudoternary_encode_emit, pseudoternary_decode_map.
    now apply pseudoternary_roundtrip_from.
  - now apply manchester_roundtrip.
  - rewrite dm_encode_emit, dm_decode_is_from_low.
    now apply dm_roundtrip_from.
Qed.

Lemma roundtrip_six_schemes_witness :
  bits [1; 0; 0; 1; 1]
  /\ (NonReturnToZeroLevel.decode
        (NonReturnToZeroLevel.encode [1; 0; 0; 1; 1]) = [1; 0; 0; 1; 1]
      /\ NonReturnToZeroInverted.decode
           (NonReturnToZeroInverted.encode [1; 0; 0; 1; 1]) = [1; 0; 0; 1; 1]
      /\ BipolarAMI.decode (BipolarAMI.encode [1; 0; 0; 1; 1])
         = [1; 0; 0; 1; 1]
      /\ Pseudoternary.decode (Pseudoternary.encode [1; 0; 0; 1; 1])
         = [1; 0; 0; 1; 1]
      /\ Manchester.decode (Manchester.encode [1; 0; 0; 1; 1])
         = [1; 0; 0; 1; 1]
      /\ DifferentialManchester.decode
           (DifferentialManchester.encode [1; 0; 0; 1; 1])
         = Ok [1; 0; 0; 1; 1]).
Proof.
  assert (H : bits [1; 0; 0; 1; 1])
    by (repeat constructor; unfold is_bit; lia).
  split; [exact H | exact (roundtrip_six_schemes [1; 0; 0; 1; 1] H)].
Defined.

(** ** Decoding a sequence of any length *)

Lemma manchester_decode_length (signal : list Z) :
  length (Manchester.decode signal) = Nat.div2 (S (length signal)).
Proof.
  induction signal as [| a | a b rest IH] using list_pair_ind.
  - reflexivity.
  - now rewrite manchester_decode_one.
  - rewrite manchester_decode_pair. cbn [length]. rewrite IH. reflexivity.
Qed.

Lemma dm_decode_from_even (signal : list Z) :
  Nat.even (length signal) = true ->
  forall p, exists r,
    dm_decode_from p signal = Ok r /\ length r = Nat.div2 (length signal).
Proof.
  induction signal as [| a | a b rest IH] using list_pair_ind; intros He p.
  - exists []; split; reflexivity.
  - discriminate.
  - destruct (IH He b) as [r [Hr Hlen]].
    exists (dm_bit p a :: r). rewrite dm_decode_from_pair, Hr.
    split; [reflexivity | cbn [length Nat.div2]; now rewrite Hlen].
Qed.

Lemma dm_decode_from_odd (signal : list Z) :
  Nat.odd (length signal) = true ->
  forall p, dm_decode_from p signal = Raise IndexError.
Proof.
  induction signal as [| a | a b rest IH] using list_pair_ind; intros Ho p.
  - discriminate.
  - reflexivity.
  - rewrite dm_decode_from_pair, (IH Ho b). reflexivity.
Qed.

(** C2. The claim that every decoder returns a result on every level
    sequence, odd lengths included, does not hold of the code:
    [DifferentialManchester.decode] applied to the one-element sequence
    [[HIGH]] reads [signal[1]] and raises [IndexError], and so it does on
    the three-element sequence [[HIGH, LOW, HIGH]]; [Manchester.decode],
    whose slice cannot raise, returns [[0]] for [[HIGH]]. *)
Theorem dm_decode_odd_length_raises :
  levels [HIGH]
  /\ DifferentialManchester.decode [HIGH] = Raise IndexError
  /\ DifferentialManchester.decode [HIGH; LOW; HIGH] = Raise IndexError
  /\ Manchester.decode [HIGH] = [0].
Proof.
  repeat split.
  repeat constructor.
Qed.

(** ** The bipolar encoders alternate polarity *)

Lemma ami_emit_cons (s x : Z) (rest : list Z) :
  emit ami_next ami_out s (x :: rest)
  = if x =? 1 then toggle s :: emit ami_next ami_out (toggle s) rest
    else NO_LINE :: emit ami_next ami_out s rest.
Proof.
  cbn [emit]. unfold ami_out at 1.
  change (ami_next s x) with (if x =? 1 then toggle s else s).
  now destruct (x =? 1).
Qed.

Lemma pseudoternary_emit_cons (s x : Z) (rest : list Z) :
  emit pseudoternary_next pseudoternary_out s (x :: rest)
  = if x =? 0
    then toggle s :: emit pseudoternary_next pseudoternary_out (toggle s) rest
    else NO_LINE :: emit pseudoternary_next pseudoternary_out s rest.
Proof.
  cbn [emit]. unfold pseudoternary_out at 1.
  change (pseudoternary_next s x) with (if x =? 0 then toggle s else s).
  now destruct (x =? 0).
Qed.

Lemma ami_no_violation_after (b : list Z) :
  forall s,
    BipolarAMI.has_violations_loop (Some s) (emit ami_next ami_out s b)
    = false.
Proof.
  induction b as [|x b IH]; intros s; [reflexivity|].
  rewrite ami_emit_cons.
  destruct (x =? 1); cbn [BipolarAMI.has_violations_loop].
  - rewrite toggle_not_no_line, toggle_neq. apply IH.
  - cbn [Z.eqb NO_LINE]. apply IH.
Qed.

Lemma ami_no_violation_from (b : list Z) :
  forall s,
    BipolarAMI.has_violations_loop None (emit ami_next ami_out s b) = false.
Proof.
  induction b as [|x b IH]; intros s; [reflexivity|].
  rewrite ami_emit_cons.
  destruct (x =? 1); cbn [BipolarAMI.has_violations_loop].
  - rewrite toggle_not_no_line. apply ami_no_violation_after.
  - cbn [Z.eqb NO_LINE]. apply IH.
Qed.

Lemma pseudoternary_no_violation_after (b : list Z) :
  forall s,
    Pseudoternary.has_violations_loop (Some s)
      (emit pseudoternary_next pseudoternary_out s b)
    = false.
Proof.
  induction b as [|x b IH]; intros s; [reflexivity|].
  rewrite pseudoternary_emit_cons.
  destruct (x =? 0); cbn [Pseudoternary.has_violations_loop].
  - rewrite toggle_not_no_line, toggle_neq. apply IH.
  - cbn [Z.eqb NO_LINE]. apply IH.
Qed.

Lemma pseudoternary_no_violation_from (b : list Z) :
  forall s,
    Pseudoternary.has_violations_loop None
      (emit pseudoternary_next pseudoternary_out s b)
    = false.
Proof.
  induction b as [|x b IH]; intros s; [reflexivity|].
  rewrite pseudoternary_emit_cons.
  destruct (x =? 0); cbn [Pseudoternary.has_violations_loop].
  - rewrite toggle_not_no_line. apply pseudoternary_no_violation_after.
  - cbn [Z.eqb NO_LINE]. apply IH.
Qed.

(** Encoded signals are violation-free whatever the input, so in
    particular when it holds two or more pulse bits. *)
Lemma ami_encode_no_violation (data : list Z) :
  BipolarAMI.has_violations (BipolarAMI.encode data) = false.
Proof.
  rewrite ami_encode_emit. apply ami_no_violation_from.
Qed.

Lemma pseudoternary_encode_no_violation (data : list Z) :
  Pseudoternary.has_violations (Pseudoternary.encode data) = false.
Proof.
  rewrite pseudoternary_encode_emit. apply pseudoternary_no_violation_from.
Qed.

(** C3. For every bit sequence [b] over {0,1} with at least two 1-bits,
    [BipolarAMI.has_violations (BipolarAMI.encode b)] is [False]; with at
    least two 0-bits, [Pseudoternary.has_violations (Pseudoternary.encode
    b)] is [False]. *)
Theorem bipolar_encode_has_no_violations (b : list Z) :
  bits b ->
  ((2 <= count_bit 1 b)%nat ->
   BipolarAMI.has_violations (BipolarAMI.encode b) = false)
  /\ ((2 <= count_bit 0 b)%nat ->
      Pseudoternary.has_violations (Pseudoternary.encode b) = false).
Proof.
  intros _; split; intros _.
  - apply ami_encode_no_violation.
  - apply pseudoternary_encode_no_violation.
Qed.

Lemma bipolar_encode_has_no_violations_witness :
  bits [1; 0; 1; 0]
  /\ (2 <= count_bit 1 [1; 0; 1; 0]%Z)%nat
  /\ (2 <= count_bit 0 [1; 0; 1; 0]%Z)%nat
  /\ BipolarAMI.has_violations (BipolarAMI.encode [1; 0; 1; 0]) = false
  /\ Pseudoternary.has_violations (Pseudoternary.encode [1; 0; 1; 0]) = false.
Proof.
  assert (Hb : bits [1; 0; 1; 0])
    by (repeat constructor; unfold is_bit; lia).
  assert (H1 : (2 <= count_bit 1 [1; 0; 1; 0]%Z)%nat)
    by (vm_compute; lia).
  assert (H0 : (2 <= count_bit 0 [1; 0; 1; 0]%Z)%nat)
    by (vm_compute; lia).
  split; [exact Hb | split; [exact H1 | split; [exact H0 | split]]].
  - exact (proj1 (bipolar_encode_has_no_violations [1; 0; 1; 0] Hb) H1).
  - exact (proj2 (bipolar_encode_has_no_violations [1; 0; 1; 0] Hb) H0).
Defined.

(** ** Pseudoternary against Bipolar-AMI *)

Lemma pseudoternary_emit_complement (data : list Z) :
  forall s,
    emit pseudoternary_next pseudoternary_out s data
    = emit ami_next ami_out s (complement data).
Proof.
  induction data as [|x data IH]; intros s; [reflexivity|].
  cbn [complement map]. fold (complement data).
  rewrite pseudoternary_emit_cons, ami_emit_cons, !IH.
  replace (1 - x =? 1) with (x =? 0)
    by (destruct (Z.eqb_spec x 0), (Z.eqb_spec (1 - x) 1); lia).
  reflexivity.
Qed.

Lemma pseudoternary_encode_complement (data : list Z) :
  Pseudoternary.encode data = BipolarAMI.encode (complement data).
Proof.
  rewrite pseudoternary_encode_emit, ami_encode_emit.
  apply pseudoternary_emit_complement.
Qed.

Lemma pseudoternary_decode_complement (signal : list Z) :
  Pseudoternary.decode signal = complement (BipolarAMI.decode signal).
Proof.
  rewrite pseudoternary_decode_map, ami_decode_map.
  unfold complement. rewrite map_map.
  apply map_ext; intros level. now destruct (level =? NO_LINE).
Qed.

Lemma has_violations_loop_same (signal : list Z) :
  forall last_nonzero,
    Pseudoternary.has_violations_loop last_nonzero signal
    = BipolarAMI.has_violations_loop last_nonzero signal.
Proof.
  induction signal as [|level rest IH]; intros last; [reflexivity|].
  cbn [Pseudoternary.has_violations_loop BipolarAMI.has_violations_loop].
  destruct (level =? NO_LINE); [apply IH|].
  destruct last as [l|]; [destruct (level =? l)|]; auto.
Qed.

(** C4. Pseudoternary mirrors Bipolar-AMI: on every bit sequence [b] its
    encoder is the AMI encoder applied to the complemented sequence; on
    every level sequence [s] its decoder returns the complement of the AMI
    decoder's result, and the two [has_violations] agree. *)
Theorem pseudoternary_mirrors_ami (b s : list Z) :
  bits b -> levels s ->
  Pseudoternary.encode b = BipolarAMI.encode (complement b)
  /\ Pseudoternary.decode s = complement (BipolarAMI.decode s)
  /\ Pseudoternary.has_violations s = BipolarAMI.has_violations s.
Proof.
  intros _ _. split; [|split].
  - apply pseudoternary_encode_complement.
  - apply pseudoternary_decode_complement.
  - apply has_violations_loop_same.
Qed.

Lemma pseudoternary_mirrors_ami_witness :
  bits [0; 1; 0; 0] /\ levels [HIGH; NO_LINE; HIGH; LOW]
  /\ Pseudoternary.encode [0; 1; 0; 0]
     = BipolarAMI.encode (complement [0; 1; 0; 0])
  /\ Pseudoternary.decode [HIGH; NO_LINE; HIGH; LOW]
     = complement (BipolarAMI.decode [HIGH; NO_LINE; HIGH; LOW])
  /\ Pseudoternary.has_violations [HIGH; NO_LINE; HIGH; LOW]
     = BipolarAMI.has_violations [HIGH; NO_LINE; HIGH; LOW].
Proof.
  assert (Hb : bits [0; 1; 0; 0])
    by (repeat constructor; unfold is_bit; lia).
  assert (Hs : levels [HIGH; NO_LINE; HIGH; LOW])
    by (repeat constructor; unfold is_level, HIGH, LOW, NO_LINE; lia).
  split; [exact Hb | split; [exact Hs|]].
  exact (pseudoternary_mirrors_ami
           [0; 1; 0; 0] [HIGH; NO_LINE; HIGH; LOW] Hb Hs).
Defined.

(** ** Lengths *)

Lemma map_length_eq (A B : Type) (f : A -> B) (xs : list A) :
  length (map f xs) = length xs.
Proof. induction xs; simpl; congruence. Qed.

(** C5. For every bit sequence [b], the encodings of NRZ-L, NRZ-I,
    Bipolar-AMI and Pseudoternary have the length of [b], and those of
    Manchester and Differential Manchester twice that length. *)
Theorem encode_length_law (b : list Z) :
  bits b ->
  length (NonReturnToZeroLevel.encode b) = length b
  /\ length (NonReturnToZeroInverted.encode b) = length b
  /\ length (BipolarAMI.encode b) = length b
  /\ length (Pseudoternary.encode b) = length b
  /\ length (Manchester.encode b) = (2 * length b)%nat
  /\ length (DifferentialManchester.encode b) = (2 * length b)%nat.
Proof.
  intros _. repeat split.
  - rewrite nrzl_encode_map. apply map_length_eq.
  - rewrite nrzi_encode_emit, (emit_length _ _ 1%nat); [lia | reflexivity].
  - rewrite ami_encode_emit, (emit_length _ _ 1%nat); [lia|].
    intros s x; unfold ami_out; now destruct (x =? 1).
  - rewrite pseudoternary_encode_emit, (emit_length _ _ 1%nat); [lia|].
    intros s x; unfold pseudoternary_out; now destruct (x =? 0).
  - rewrite manchester_encode_flat_map.
    induction b as [|x b IH]; [reflexivity|].
    cbn [flat_map]. rewrite length_app, IH.
    destruct (x =? 1); cbn [length]; lia.
  - rewrite dm_encode_emit, (emit_length _ _ 2%nat); reflexivity.
Qed.

Lemma encode_length_law_witness :
  bits [1; 0; 1]
  /\ (length (NonReturnToZeroLevel.encode [1; 0; 1]) = length [1; 0; 1]
      /\ length (NonReturnToZeroInverted.encode [1; 0; 1]) = length [1; 0; 1]
      /\ length (BipolarAMI.encode [1; 0; 1]) = length [1; 0; 1]
      /\ length (Pseudoternary.encode [1; 0; 1]) = length [1; 0; 1]
      /\ length (Manchester.encode [1; 0; 1]) = (2 * length [1; 0; 1])%nat
      /\ length (DifferentialManchester.encode [1; 0; 1])
         = (2 * length [1; 0; 1])%nat).
Proof.
  assert (Hb : bits [1; 0; 1])
    by (repeat constructor; unfold is_bit; lia).
  split; [exact Hb | exact (encode_length_law [1; 0; 1] Hb)].
Defined.

(** ** The mid-bit transition of Differential Manchester *)

Lemma dm_emit_midbit (b : list Z) :
  forall s i,
    (i < length b)%nat ->
    exists x,
      nth_error (emit dm_next dm_out s b) (2 * i) = Some x
      /\ nth_error (emit dm_next dm_out s b) (2 * i + 1) = Some (toggle x).
Proof.
  induction b as [|bit b IH]; intros s i Hi; cbn [length] in Hi; [lia|].
  rewrite dm_emit_cons. destruct i as [|i].
  - exists (dm_first_half s bit). split; reflexivity.
  - replace (2 * S i)%nat with (S (S (2 * i))) by lia.
    cbn [Nat.add nth_error]. apply IH. lia.
Qed.

(** C6. For every bit sequence [b] and every index [i < len(b)], the
    levels at positions [2*i] and [2*i+1] of
    [DifferentialManchester.encode(b)] exist and differ. *)
Theorem dm_encode_midbit_transition (b : list Z) (i : nat) :
  bits b -> (i < length b)%nat ->
  exists x y,
    nth_error (DifferentialManchester.encode b) (2 * i) = Some x
    /\ nth_error (DifferentialManchester.encode b) (2 * i + 1) = Some y
    /\ x <> y.
Proof.
  intros _ Hi. rewrite dm_encode_emit.
  destruct (dm_emit_midbit b LOW i Hi) as [x [H0 H1]].
  exists x, (toggle x). repeat split; try assumption.
  intros E. pose proof (toggle_neq x) as N.
  rewrite <- E, Z.eqb_refl in N. discriminate.
Qed.

Lemma dm_encode_midbit_transition_witness :
  bits [0; 1; 1] /\ (2 < length [0; 1; 1]%Z)%nat
  /\ exists x y,
       nth_error (DifferentialManchester.encode [0; 1; 1]) (2 * 2) = Some x
       /\ nth_error (DifferentialManchester.encode [0; 1; 1]) (2 * 2 + 1)
          = Some y
       /\ x <> y.
Proof.
  assert (Hb : bits [0; 1; 1])
    by (repeat constructor; unfold is_bit; lia).
  assert (Hi : (2 < length [0; 1; 1]%Z)%nat) by (simpl; lia).
  split; [exact Hb | split; [exact Hi|]].
  exact (dm_encode_midbit_transition [0; 1; 1] 2 Hb Hi).
Defined.

(** ** What the violation scan decides *)

Lemma repeated_pulse_nil : ~ repeated_pulse [].
Proof.
  intros [before [x [after E]]]. now destruct before.
Qed.

Lemma repeated_pulse_one (a : Z) : ~ repeated_pulse [a].
Proof.
  intros [before [x [after E]]].
  destruct before as [|? [|? ?]]; discriminate.
Qed.

Lemma repeated_pulse_cons (a b : Z) (p : list Z) :
  repeated_pulse (a :: b :: p) <-> a = b \/ repeated_pulse (b :: p).
Proof.
  split.
  - intros [before [x [after E]]]. destruct before as [|c before].
    + injection E as -> -> _. now left.
    + injection E as _ E. right. now exists before, x, after.
  - intros [-> | [before [x [after E]]]].
    + now exists [], b, p.
    + exists (a :: before), x, after. now rewrite E.
Qed.

(** The scan entered with [last_nonzero] decides whether the pulses seen
    so far (at most the last one matters) followed by the pulses of the
    rest of the signal contain two equal neighbours. *)
Lemma ami_has_violations_loop_spec (signal : list Z) :
  forall last_nonzero,
    BipolarAMI.has_violations_loop last_nonzero signal = true
    <-> repeated_pulse
          (match last_nonzero with Some l => [l] | None => [] end
           ++ pulses signal).
Proof.
  induction signal as [|level rest IH]; intros last.
  - cbn [BipolarAMI.has_violations_loop pulses filter]. rewrite app_nil_r.
    split; [discriminate|].
    destruct last; intros H;
      [now apply repeated_pulse_one in H | now apply repeated_pulse_nil in H].
  - cbn [BipolarAMI.has_violations_loop pulses filter].
    fold (pulses rest).
    destruct (level =? NO_LINE); cbn [negb]; [apply IH|].
    destruct last as [l|]; cbn [app].
    + rewrite repeated_pulse_cons.
      destruct (Z.eqb_spec level l) as [->|N].
      * split; auto.
      * rewrite (IH (Some level)). cbn [app].
        split; [now right | intros [E|H]; [congruence | exact H]].
    + apply (IH (Some level)).
Qed.

(** C7. On a level sequence, [has_violations] is [True] exactly when the
    sequence with its [NO_LINE] elements ignored holds two consecutive
    pulses of equal polarity; it is [True] on [[HIGH, NO_LINE, HIGH]] and
    [False] on [[HIGH, LOW, HIGH]]. *)
Theorem has_violations_iff_repeated_pulse (s : list Z) :
  levels s ->
  (BipolarAMI.has_violations s = true <-> repeated_pulse (pulses s))
  /\ (Pseudoternary.has_violations s = true <-> repeated_pulse (pulses s))
  /\ BipolarAMI.has_violations [HIGH; NO_LINE; HIGH] = true
  /\ BipolarAMI.has_violations [HIGH; LOW; HIGH] = false.
Proof.
  intros _.
  assert (H : BipolarAMI.has_violations s = true
              <-> repeated_pulse (pulses s))
    by apply (ami_has_violations_loop_spec s None).
  split; [exact H | split; [|split; reflexivity]].
  unfold Pseudoternary.has_violations.
  rewrite has_violations_loop_same. exact H.
Qed.

Lemma has_violations_iff_repeated_pulse_witness :
  levels [LOW; NO_LINE; HIGH; NO_LINE; HIGH]
  /\ ((BipolarAMI.has_violations [LOW; NO_LINE; HIGH; NO_LINE; HIGH] = true
       <-> repeated_pulse (pulses [LOW; NO_LINE; HIGH; NO_LINE; HIGH]))
      /\ (Pseudoternary.has_violations [LOW; NO_LINE; HIGH; NO_LINE; HIGH]
          = true
          <-> repeated_pulse (pulses [LOW; NO_LINE; HIGH; NO_LINE; HIGH]))
      /\ BipolarAMI.has_violations [HIGH; NO_LINE; HIGH] = true
      /\ BipolarAMI.has_violations [HIGH; LOW; HIGH] = false).
Proof.
  assert (Hs : levels [LOW; NO_LINE; HIGH; NO_LINE; HIGH])
    by (repeat constructor; unfold is_level, HIGH, LOW, NO_LINE; lia).
  split; [exact Hs|].
  exact (has_violations_iff_repeated_pulse
           [LOW; NO_LINE; HIGH; NO_LINE; HIGH] Hs).
Defined.

(** ** Two-level codes never idle the line *)

Lemma toggle_high_or_low (s : Z) : is_high_or_low (toggle s).
Proof. exact (toggle_cases s). Qed.

Lemma nrzi_emit_high_or_low (data : list Z) :
  forall s,
    is_high_or_low s ->
    Forall is_high_or_low
           (emit nrzi_next (fun s bit => [nrzi_next s bit]) s data).
Proof.
  induction data as [|x data IH]; intros s Hs; [constructor|].
  cbn [emit app].
  assert (Hn : is_high_or_low (nrzi_next s x)).
  { unfold nrzi_next. destruct (x =? 1); [apply toggle_high_or_low | exact Hs]. }
  constructor; [exact Hn | now apply IH].
Qed.

Lemma dm_emit_high_or_low (data : list Z) :
  forall s,
    is_high_or_low s -> Forall is_high_or_low (emit dm_next dm_out s data).
Proof.
  induction data as [|x data IH]; intros s Hs; [constructor|].
  rewrite dm_emit_cons.
  constructor; [|constructor].
  - unfold dm_first_half. destruct (x =? 0);
      [apply toggle_high_or_low | exact Hs].
  - apply toggle_high_or_low.
  - apply IH, toggle_high_or_low.
Qed.

(** C8. For every bit sequence [b], every level the encoders of NRZ-L,
    NRZ-I, Manchester and Differential Manchester emit is [HIGH] or [LOW];
    the Bipolar-AMI and Pseudoternary encoders do emit [NO_LINE] on some
    bit sequences. *)
Theorem two_level_encoders_never_idle (b : list Z) :
  bits b ->
  Forall is_high_or_low (NonReturnToZeroLevel.encode b)
  /\ Forall is_high_or_low (NonReturnToZeroInverted.encode b)
  /\ Forall is_high_or_low (Manchester.encode b)
  /\ Forall is_high_or_low (DifferentialManchester.encode b)
  /\ (exists b', bits b' /\ In NO_LINE (BipolarAMI.encode b'))
  /\ (exists b', bits b' /\ In NO_LINE (Pseudoternary.encode b')).
Proof.
  intros _. split; [|split; [|split; [|split; [|split]]]].
  - rewrite nrzl_encode_map. apply Forall_forall.
    intros l Hl. apply in_map_iff in Hl as [x [<- _]].
    destruct (x =? 1); [now right | now left].
  - rewrite nrzi_encode_emit. apply nrzi_emit_high_or_low. now right.
  - rewrite manchester_encode_flat_map. apply Forall_forall.
    intros l Hl. apply in_flat_map in Hl as [x [_ Hl]].
    destruct (x =? 1); cbn [In] in Hl;
      destruct Hl as [<- | [<- | []]]; (now left) || (now right).
  - rewrite dm_encode_emit. apply dm_emit_high_or_low. now right.
  - exists [0]. split; [repeat constructor | now left].
  - exists [1]. split; [repeat constructor; now right | now left].
Qed.

Lemma two_level_encoders_never_idle_witness :
  bits [1; 1; 0]
  /\ (Forall is_high_or_low (NonReturnToZeroLevel.encode [1; 1; 0])
      /\ Forall is_high_or_low (NonReturnToZeroInverted.encode [1; 1; 0])
      /\ Forall is_high_or_low (Manchester.encode [1; 1; 0])
      /\ Forall is_high_or_low (DifferentialManchester.encode [1; 1; 0])
      /\ (exists b', bits b' /\ In NO_LINE (BipolarAMI.encode b'))
      /\ (exists b', bits b' /\ In NO_LINE (Pseudoternary.encode b'))).
Proof.
  assert (Hb : bits [1; 1; 0])
    by (repeat constructor; unfold is_bit; lia).
  split; [exact Hb | exact (two_level_encoders_never_idle [1; 1; 0] Hb)].
Defined.

(** ** The first pulse of a bipolar encoding *)

Lemma ami_first_pulse_from (b : list Z) :
  forall s,
    In 1 b -> first_pulse (emit ami_next ami_out s b) = Some (toggle s).
Proof.
  induction b as [|x b IH]; intros s Hin; [destruct Hin|].
  rewrite ami_emit_cons.
  destruct (Z.eqb_spec x 1) as [->|N]; cbn [first_pulse find].
  - now rewrite toggle_not_no_line.
  - cbn [NO_LINE Z.eqb negb]. apply IH.
    destruct Hin as [E|Hin]; [congruence | exact Hin].
Qed.

Lemma pseudoternary_first_pulse_from (b : list Z) :
  forall s,
    In 0 b ->
    first_pulse (emit pseudoternary_next pseudoternary_out s b)
    = Some (toggle s).
Proof.
  induction b as [|x b IH]; intros s Hin; [destruct Hin|].
  rewrite pseudoternary_emit_cons.
  destruct (Z.eqb_spec x 0) as [->|N]; cbn [first_pulse find].
  - now rewrite toggle_not_no_line.
  - cbn [NO_LINE Z.eqb negb]. apply IH.
    destruct Hin as [E|Hin]; [congruence | exact Hin].
Qed.

(** C9. For every non-empty bit sequence [b] that holds a pulse bit (a 1
    for Bipolar-AMI, a 0 for Pseudoternary), the first level of
    [encode(b)] other than [NO_LINE] is [HIGH]. *)
Theorem bipolar_first_pulse_is_high (b : list Z) :
  b <> [] -> bits b ->
  (In 1 b -> first_pulse (BipolarAMI.encode b) = Some HIGH)
  /\ (In 0 b -> first_pulse (Pseudoternary.encode b) = Some HIGH).
Proof.
  intros _ _. split; intros Hin.
  - rewrite ami_encode_emit. now apply ami_first_pulse_from.
  - rewrite pseudoternary_encode_emit.
    now apply pseudoternary_first_pulse_from.
Qed.

Lemma bipolar_first_pulse_is_high_witness :
  [0; 0; 1; 1] <> [] /\ bits [0; 0; 1; 1]
  /\ In 1 [0; 0; 1; 1] /\ In 0 [0; 0; 1; 1]
  /\ first_pulse (BipolarAMI.encode [0; 0; 1; 1]) = Some HIGH
  /\ first_pulse (Pseudoternary.encode [0; 0; 1; 1]) = Some HIGH.
Proof.
  assert (Hne : [0; 0; 1; 1] <> []) by discriminate.
  assert (Hb : bits [0; 0; 1; 1])
    by (repeat constructor; unfold is_bit; lia).
  assert (H1 : In 1 [0; 0; 1; 1]) by (simpl; lia).
  assert (H0 : In 0 [0; 0; 1; 1]) by (simpl; lia).
  split; [exact Hne | split; [exact Hb | split; [exact H1 | split;
    [exact H0 | split]]]].
  - exact (proj1 (bipolar_first_pulse_is_high [0; 0; 1; 1] Hne Hb) H1).
  - exact (proj2 (bipolar_first_pulse_is_high [0; 0; 1; 1] Hne Hb) H0).
Defined.

(** ** Out-of-alphabet bits *)

Lemma read_one_else_zero_test (x : Z) :
  (read_one_else_zero x =? 1) = (x =? 1).
Proof. unfold read_one_else_zero. now destruct (x =? 1). Qed.

Lemma read_zero_else_one_test (x : Z) :
  (read_zero_else_one x =? 0) = (x =? 0).
Proof. unfold read_zero_else_one. now destruct (x =? 0). Qed.

Section EmitMap.

Context {S A B : Type}.
Variable next : S -> A -> S.
Variable out : S -> A -> list B.
Variable g : A -> A.
Hypothesis next_g : forall s x, next s (g x) = next s x.
Hypothesis out_g : forall s x, out s (g x) = out s x.

Lemma emit_map (xs : list A) :
  forall s, emit next out s (map g xs) = emit next out s xs.
Proof.
  induction xs as [|x xs IH]; intros s; [reflexivity|].
  cbn [map emit]. now rewrite next_g, out_g, IH.
Qed.

End EmitMap.

(** C10. On every list of integers, NRZ-L, NRZ-I, Bipolar-AMI and
    Manchester encode each element other than 1 as they encode the bit 0,
    while Pseudoternary and Differential Manchester encode each element
    other than 0 as they encode the bit 1; the value 2 is encoded as a 0
    by Bipolar-AMI and as a 1 by Pseudoternary. *)
Theorem default_branch_differs_across_schemes (data : list Z) :
  NonReturnToZeroLevel.encode data
  = NonReturnToZeroLevel.encode (map read_one_else_zero data)
  /\ NonReturnToZeroInverted.encode data
     = NonReturnToZeroInverted.encode (map read_one_else_zero data)
  /\ BipolarAMI.encode data
     = BipolarAMI.encode (map read_one_else_zero data)
  /\ Manchester.encode data
     = Manchester.encode (map read_one_else_zero data)
  /\ Pseudoternary.encode data
     = Pseudoternary.encode (map read_zero_else_one data)
  /\ DifferentialManchester.encode data
     = DifferentialManchester.encode (map read_zero_else_one data)
  /\ (BipolarAMI.encode [2] = BipolarAMI.encode [0]
      /\ BipolarAMI.encode [2] <> BipolarAMI.encode [1])
  /\ (Pseudoternary.encode [2] = Pseudoternary.encode [1]
      /\ Pseudoternary.encode [2] <> Pseudoternary.encode [0]).
Proof.
  repeat split; try discriminate.
  - rewrite !nrzl_encode_map, map_map. apply map_ext; intros x.
    now rewrite read_one_else_zero_test.
  - rewrite !nrzi_encode_emit. symmetry. apply emit_map; intros s x;
      unfold nrzi_next; now rewrite read_one_else_zero_test.
  - rewrite !ami_encode_emit. symmetry. apply emit_map; intros s x;
      unfold ami_next, ami_out; now rewrite read_one_else_zero_test.
  - rewrite !manchester_encode_flat_map.
    induction data as [|x data IH]; [reflexivity|].
    cbn [map flat_map]. now rewrite read_one_else_zero_test, IH.
  - rewrite !pseudoternary_encode_emit. symmetry. apply emit_map; intros s x;
      unfold pseudoternary_next, pseudoternary_out;
      now rewrite read_zero_else_one_test.
  - rewrite !dm_encode_emit. symmetry. apply emit_map; intros s x;
      unfold dm_next, dm_out, dm_first_half;
      now rewrite read_zero_else_one_test.
Qed.

(** * Further properties of the line codes *)

(** ** What the decoders return on arbitrary integer sequences *)

Lemma is_level_of_high_or_low (x : Z) : is_high_or_low x -> is_level x.
Proof. intros [-> | ->]; [now left | now right; left]. Qed.

Lemma dm_decode_from_bits (signal : list Z) :
  forall p,
    match dm_decode_from p signal with
    | Ok r => bits r
    | Raise _ => True
    end.
Proof.
  induction signal as [| a | a b rest IH] using list_pair_ind; intros p.
  - constructor.
  - exact I.
  - rewrite dm_decode_from_pair. specialize (IH b).
    destruct (dm_decode_from b rest) as [r|e]; cbn [bind]; [|exact I].
    constructor; [|exact IH].
    unfold dm_bit. destruct (negb (a =? p)); [now left | now right].
Qed.

(** X1. On every integer sequence the decoders of NRZ-L, NRZ-I, Bipolar-AMI
    and Pseudoternary return one bit per level, and [Manchester.decode]
    returns [ceil(len/2)] bits: a trailing lone level yields a bit too. *)
Theorem decode_length_law (s : list Z) :
  length (NonReturnToZeroLevel.decode s) = length s
  /\ length (NonReturnToZeroInverted.decode s) = length s
  /\ length (BipolarAMI.decode s) = length s
  /\ length (Pseudoternary.decode s) = length s
  /\ length (Manchester.decode s) = Nat.div2 (S (length s)).
Proof.
  repeat split.
  - rewrite nrzl_decode_map. apply map_length_eq.
  - rewrite nrzi_decode_emit, (emit_length _ _ 1%nat); [lia | reflexivity].
  - rewrite ami_decode_map. apply map_length_eq.
  - rewrite pseudoternary_decode_map. apply map_length_eq.
  - apply manchester_decode_length.
Qed.

(** X2. [DifferentialManchester.decode] returns a result exactly on the
    sequences of even length, with [len/2] bits, and raises [IndexError]
    exactly on those of odd length. *)
Theorem dm_decode_by_parity (s : list Z) :
  match DifferentialManchester.decode s with
  | Ok r => Nat.even (length s) = true /\ length r = Nat.div2 (length s)
  | Raise e => e = IndexError /\ Nat.odd (length s) = true
  end.
Proof.
  rewrite dm_decode_is_from_low.
  destruct (Nat.even (length s)) eqn:E.
  - destruct (dm_decode_from_even s E LOW) as [r [-> Hlen]]. now split.
  - assert (O : Nat.odd (length s) = true)
      by (unfold Nat.odd; now rewrite E).
    rewrite (dm_decode_from_odd s O LOW). now split.
Qed.

(** X3. Whatever integers the level sequence holds, every decoder returns
    only the bits 0 and 1. *)
Theorem decoded_bits_are_bits (s : list Z) :
  bits (NonReturnToZeroLevel.decode s)
  /\ bits (NonReturnToZeroInverted.decode s)
  /\ bits (BipolarAMI.decode s)
  /\ bits (Pseudoternary.decode s)
  /\ bits (Manchester.decode s)
  /\ match DifferentialManchester.decode s with
     | Ok r => bits r
     | Raise _ => True
     end.
Proof.
  split; [|split; [|split; [|split; [|split]]]].
  - rewrite nrzl_decode_map. apply Forall_forall.
    intros x Hx. apply in_map_iff in Hx as [l [<- _]].
    destruct (l =? LOW); [now right | now left].
  - rewrite nrzi_decode_emit. generalize LOW.
    induction s as [|l s IH]; intros p; [constructor|].
    cbn [emit app]. constructor; [|apply IH].
    destruct (negb (l =? p)); [now right | now left].
  - rewrite ami_decode_map. apply Forall_forall.
    intros x Hx. apply in_map_iff in Hx as [l [<- _]].
    destruct (l =? NO_LINE); [now left | now right].
  - rewrite pseudoternary_decode_map. apply Forall_forall.
    intros x Hx. apply in_map_iff in Hx as [l [<- _]].
    destruct (l =? NO_LINE); [now right | now left].
  - induction s as [| a | a b rest IH] using list_pair_ind.
    + constructor.
    + rewrite manchester_decode_one. constructor; [now left | constructor].
    + rewrite manchester_decode_pair. constructor; [|exact IH].
      unfold manchester_bit.
      destruct ((a =? LOW) && (b =? HIGH)); [now right | now left].
  - apply dm_decode_from_bits.
Qed.

(** ** What the encoders emit on arbitrary integer sequences *)

Lemma ami_emit_levels (data : list Z) :
  forall s, levels (emit ami_next ami_out s data).
Proof.
  induction data as [|x data IH]; intros s; [constructor|].
  rewrite ami_emit_cons. destruct (x =? 1); constructor; try apply IH.
  - apply is_level_of_high_or_low, toggle_high_or_low.
  - now right; right.
Qed.

Lemma pseudoternary_emit_levels (data : list Z) :
  forall s, levels (emit pseudoternary_next pseudoternary_out s data).
Proof.
  induction data as [|x data IH]; intros s; [constructor|].
  rewrite pseudoternary_emit_cons.
  destruct (x =? 0); constructor; try apply IH.
  - apply is_level_of_high_or_low, toggle_high_or_low.
  - now right; right.
Qed.

Lemma nrzl_encode_high_or_low (data : list Z) :
  Forall is_high_or_low (NonReturnToZeroLevel.encode data).
Proof.
  rewrite nrzl_encode_map. apply Forall_forall.
  intros l Hl. apply in_map_iff in Hl as [x [<- _]].
  destruct (x =? 1); [now right | now left].
Qed.

Lemma manchester_encode_high_or_low (data : list Z) :
  Forall is_high_or_low (Manchester.encode data).
Proof.
  rewrite manchester_encode_flat_map. apply Forall_forall.
  intros l Hl. apply in_flat_map in Hl as [x [_ Hl]].
  destruct (x =? 1); cbn [In] in Hl;
    destruct Hl as [<- | [<- | []]]; (now left) || (now right).
Qed.

Lemma nrzi_encode_high_or_low (data : list Z) :
  Forall is_high_or_low (NonReturnToZeroInverted.encode data).
Proof.
  rewrite nrzi_encode_emit. apply nrzi_emit_high_or_low. now right.
Qed.

Lemma dm_encode_high_or_low (data : list Z) :
  Forall is_high_or_low (DifferentialManchester.encode data).
Proof.
  rewrite dm_encode_emit. apply dm_emit_high_or_low. now right.
Qed.

(** X4. Whatever integers the input list holds, bits or not, every encoder
    emits only levels of the alphabet [HIGH], [LOW], [NO_LINE]. *)
Theorem encoded_levels_are_levels (data : list Z) :
  levels (NonReturnToZeroLevel.encode data)
  /\ levels (NonReturnToZeroInverted.encode data)
  /\ levels (BipolarAMI.encode data)
  /\ levels (Pseudoternary.encode data)
  /\ levels (Manchester.encode data)
  /\ levels (DifferentialManchester.encode data).
Proof.
  split; [|split; [|split; [|split; [|split]]]].
  - eapply Forall_impl; [apply is_level_of_high_or_low|].
    apply nrzl_encode_high_or_low.
  - eapply Forall_impl; [apply is_level_of_high_or_low|].
    apply nrzi_encode_high_or_low.
  - rewrite ami_encode_emit. apply ami_emit_levels.
  - rewrite pseudoternary_encode_emit. apply pseudoternary_emit_levels.
  - eapply Forall_impl; [apply is_level_of_high_or_low|].
    apply manchester_encode_high_or_low.
  - eapply Forall_impl; [apply is_level_of_high_or_low|].
    apply dm_encode_high_or_low.
Qed.

(** ** Round trips on lists that hold more than bits *)

Lemma bits_read_one_else_zero (data : list Z) :
  bits (map read_one_else_zero data).
Proof.
  induction data as [|x data IH]; constructor; [|exact IH].
  unfold read_one_else_zero. destruct (x =? 1); [now right | now left].
Qed.

Lemma bits_read_zero_else_one (data : list Z) :
  bits (map read_zero_else_one data).
Proof.
  induction data as [|x data IH]; constructor; [|exact IH].
  unfold read_zero_else_one. destruct (x =? 0); [now left | now right].
Qed.

Lemma nrzl_encode_read (data : list Z) :
  NonReturnToZeroLevel.encode (map read_one_else_zero data)
  = NonReturnToZeroLevel.encode data.
Proof.
  rewrite !nrzl_encode_map, map_map. apply map_ext; intros x.
  now rewrite read_one_else_zero_test.
Qed.

Lemma nrzi_encode_read (data : list Z) :
  NonReturnToZeroInverted.encode (map read_one_else_zero data)
  = NonReturnToZeroInverted.encode data.
Proof.
  rewrite !nrzi_encode_emit. apply emit_map; intros s x;
    unfold nrzi_next; now rewrite read_one_else_zero_test.
Qed.

Lemma ami_encode_read (data : list Z) :
  BipolarAMI.encode (map read_one_else_zero data) = BipolarAMI.encode data.
Proof.
  rewrite !ami_encode_emit. apply emit_map; intros s x;
    unfold ami_next, ami_out; now rewrite read_one_else_zero_test.
Qed.

Lemma manchester_encode_read (data : list Z) :
  Manchester.encode (map read_one_else_zero data) = Manchester.encode data.
Proof.
  rewrite !manchester_encode_flat_map.
  induction data as [|x data IH]; [reflexivity|].
  cbn [map flat_map]. now rewrite read_one_else_zero_test, IH.
Qed.

Lemma pseudoternary_encode_read (data : list Z) :
  Pseudoternary.encode (map read_zero_else_one data)
  = Pseudoternary.encode data.
Proof.
  rewrite !pseudoternary_encode_emit. apply emit_map; intros s x;
    unfold pseudoternary_next, pseudoternary_out;
    now rewrite read_zero_else_one_test.
Qed.

Lemma dm_encode_read (data : list Z) :
  DifferentialManchester.encode (map read_zero_else_one data)
  = DifferentialManchester.encode data.
Proof.
  rewrite !dm_encode_emit. apply emit_map; intros s x;
    unfold dm_next, dm_out, dm_first_half;
    now rewrite read_zero_else_one_test.
Qed.

(** X5. On every list of integers, decoding an encoding returns the list
    with each element replaced by the bit the encoder read it as: 1 if it
    equals 1 and 0 otherwise for NRZ-L, NRZ-I, Bipolar-AMI and Manchester;
    0 if it equals 0 and 1 otherwise for Pseudoternary and Differential
    Manchester. *)
Theorem roundtrip_normalises (data : list Z) :
  NonReturnToZeroLevel.decode (NonReturnToZeroLevel.encode data)
  = map read_one_else_zero data
  /\ NonReturnToZeroInverted.decode (NonReturnToZeroInverted.encode data)
     = map read_one_else_zero data
  /\ BipolarAMI.decode (BipolarAMI.encode data)
     = map read_one_else_zero data
  /\ Manchester.decode (Manchester.encode data)
     = map read_one_else_zero data
  /\ Pseudoternary.decode (Pseudoternary.encode data)
     = map read_zero_else_one data
  /\ DifferentialManchester.decode (DifferentialManchester.encode data)
     = Ok (map read_zero_else_one data).
Proof.
  pose proof (bits_read_one_else_zero data) as H1.
  pose proof (bits_read_zero_else_one data) as H0.
  split; [|split; [|split; [|split; [|split]]]].
  - rewrite <- nrzl_encode_read. now apply nrzl_roundtrip.
  - rewrite <- nrzi_encode_read, nrzi_encode_emit, nrzi_decode_emit.
    now apply nrzi_roundtrip_from.
  - rewrite <- ami_encode_read, ami_encode_emit, ami_decode_map.
    now apply ami_roundtrip_from.
  - rewrite <- manchester_encode_read. now apply manchester_roundtrip.
  - rewrite <- pseudoternary_encode_read, pseudoternary_encode_emit,
      pseudoternary_decode_map.
    now apply pseudoternary_roundtrip_from.
  - rewrite <- dm_encode_read, dm_encode_emit, dm_decode_is_from_low.
    now apply dm_roundtrip_from.
Qed.

(** ** Encoding what was decoded *)

Lemma toggle_opp (s : Z) : is_high_or_low s -> toggle s = - s.
Proof. intros [-> | ->]; reflexivity. Qed.

Lemma high_or_low_neq (l p : Z) :
  is_high_or_low l -> is_high_or_low p -> l <> p -> l = toggle p.
Proof. intros [-> | ->] [-> | ->] N; try reflexivity; now contradiction N. Qed.

Lemma nrzi_reencode_from (s : list Z) :
  Forall is_high_or_low s ->
  forall p,
    is_high_or_low p ->
    emit nrzi_next (fun s bit => [nrzi_next s bit]) p
         (emit (fun _ level => level)
               (fun previous_level level =>
                  [if negb (level =? previous_level) then 1 else 0])
               p s)
    = s.
Proof.
  induction s as [|l s IH]; intros Hs p Hp; [reflexivity|].
  inversion Hs as [|? ? Hl Hs']; subst.
  cbn [emit app].
  assert (E : nrzi_next p (if negb (l =? p) then 1 else 0) = l).
  { unfold nrzi_next. destruct (Z.eqb_spec l p) as [->|N]; cbn [negb].
    - reflexivity.
    - cbn [Z.eqb Pos.eqb]. symmetry. now apply high_or_low_neq. }
  rewrite E. f_equal. now apply IH.
Qed.

(** X6. On a sequence of [HIGH] and [LOW] levels, NRZ-L and NRZ-I encode
    what they decoded back to the same sequence: with C1, each is a
    bijection between bit sequences and two-level sequences. *)
Theorem nrz_encode_decode (s : list Z) :
  Forall is_high_or_low s ->
  NonReturnToZeroLevel.encode (NonReturnToZeroLevel.decode s) = s
  /\ NonReturnToZeroInverted.encode (NonReturnToZeroInverted.decode s) = s.
Proof.
  intros Hs. split.
  - rewrite nrzl_decode_map, nrzl_encode_map, map_map.
    induction Hs as [|l s Hl Hs IH]; [reflexivity|].
    cbn [map]. rewrite IH. now destruct Hl as [-> | ->].
  - rewrite nrzi_decode_emit, nrzi_encode_emit.
    apply nrzi_reencode_from; [exact Hs | now right].
Qed.

Lemma nrz_encode_decode_witness :
  Forall is_high_or_low [HIGH; HIGH; LOW; HIGH]
  /\ (NonReturnToZeroLevel.encode
        (NonReturnToZeroLevel.decode [HIGH; HIGH; LOW; HIGH])
      = [HIGH; HIGH; LOW; HIGH]
      /\ NonReturnToZeroInverted.encode
           (NonReturnToZeroInverted.decode [HIGH; HIGH; LOW; HIGH])
         = [HIGH; HIGH; LOW; HIGH]).
Proof.
  assert (Hs : Forall is_high_or_low [HIGH; HIGH; LOW; HIGH])
    by (repeat constructor; unfold is_high_or_low, HIGH, LOW; lia).
  split; [exact Hs | exact (nrz_encode_decode [HIGH; HIGH; LOW; HIGH] Hs)].
Defined.

(** ** The signals the bipolar encoders can produce *)









(** ** The two-levels-per-bit codes as expansions of the NRZ codes *)

Lemma dm_emit_expands_nrzi (b : list Z) :
  bits b ->
  forall s,
    is_high_or_low s ->
    emit dm_next dm_out s b
    = flat_map (fun level => [- level; level])
               (emit nrzi_next (fun s bit => [nrzi_next s bit]) s b).
Proof.
  induction b as [|x b IH]; intros Hb s Hs; [reflexivity|].
  bit_cases Hb; rewrite dm_emit_cons; cbn [emit app flat_map];
    unfold dm_first_half, nrzi_next; cbn [Z.eqb Pos.eqb].
  - rewrite (toggle_opp s Hs), (toggle_opp (- s)), Z.opp_involutive.
    + f_equal. f_equal. now apply IH.
    + destruct Hs as [-> | ->]; [now right | now left].
  - rewrite (toggle_opp s Hs), Z.opp_involutive.
    f_equal. f_equal. apply IH; [assumption|].
    destruct Hs as [-> | ->]; [now right | now left].
Qed.

(** X8. The Manchester encoding of any integer list is the NRZ-L encoding
    with every level [l] expanded to the pair [l, -l]; the Differential
    Manchester encoding of a bit sequence is the NRZ-I encoding with every
    level [l] expanded to the pair [-l, l]. *)
Theorem manchester_codes_expand_nrz (data b : list Z) :
  bits b ->
  Manchester.encode data
  = flat_map (fun level => [level; - level])
             (NonReturnToZeroLevel.encode data)
  /\ DifferentialManchester.encode b
     = flat_map (fun level => [- level; level])
                (NonReturnToZeroInverted.encode b).
Proof.
  intros Hb. split.
  - rewrite manchester_encode_flat_map, nrzl_encode_map.
    induction data as [|x data IH]; [reflexivity|].
    cbn [map flat_map]. rewrite IH. now destruct (x =? 1).
  - rewrite dm_encode_emit, nrzi_encode_emit.
    apply dm_emit_expands_nrzi; [exact Hb | now right].
Qed.

Lemma manchester_codes_expand_nrz_witness :
  bits [0; 1; 1; 0]
  /\ (Manchester.encode [0; 2; 1]
      = flat_map (fun level => [level; - level])
                 (NonReturnToZeroLevel.encode [0; 2; 1])
      /\ DifferentialManchester.encode [0; 1; 1; 0]
         = flat_map (fun level => [- level; level])
                    (NonReturnToZeroInverted.encode [0; 1; 1; 0])).
Proof.
  assert (Hb : bits [0; 1; 1; 0])
    by (repeat constructor; unfold is_bit; lia).
  split; [exact Hb|].
  exact (manchester_codes_expand_nrz [0; 2; 1] [0; 1; 1; 0] Hb).
Defined.

(** ** Inverting the polarity of the line *)

Lemma opp_eqb (x y : Z) : (- x =? - y) = (x =? y).
Proof. destruct (Z.eqb_spec x y), (Z.eqb_spec (- x) (- y)); lia. Qed.

Lemma nrzi_decode_from_invert (s : list Z) :
  forall p,
    emit (fun _ level => level)
         (fun previous_level level =>
            [if negb (level =? previous_level) then 1 else 0])
         (- p) (invert s)
    = emit (fun _ level => level)
           (fun previous_level level =>
              [if negb (level =? previous_level) then 1 else 0])
           p s.
Proof.
  induction s as [|l s IH]; intros p; [reflexivity|].
  cbn [invert map emit app]. fold (invert s). now rewrite opp_eqb, IH.
Qed.

Lemma dm_decode_from_invert (s : list Z) :
  forall p, dm_decode_from (- p) (invert s) = dm_decode_from p s.
Proof.
  induction s as [| a | a b rest IH] using list_pair_ind; intros p.
  - reflexivity.
  - reflexivity.
  - cbn [invert map]. fold (invert rest).
    rewrite !dm_decode_from_pair, IH. unfold dm_bit. now rewrite opp_eqb.
Qed.

(** X9. Inverting the polarity of a two-level signal changes only the
    first bit that the differential decoders return: NRZ-I decodes the
    inverted signal to the same bits with the first one complemented, and
    so does Differential Manchester whenever it returns a result (it raises
    on the inverted signal exactly when it raises on the signal). *)
Theorem differential_decoders_under_inversion (s : list Z) :
  Forall is_high_or_low s ->
  NonReturnToZeroInverted.decode (invert s)
  = flip_first (NonReturnToZeroInverted.decode s)
  /\ DifferentialManchester.decode (invert s)
     = match DifferentialManchester.decode s with
       | Ok r => Ok (flip_first r)
       | Raise e => Raise e
       end.
Proof.
  intros Hs. split.
  - rewrite !nrzi_decode_emit.
    destruct Hs as [|l s Hl Hs]; [reflexivity|].
    cbn [invert map emit app flip_first]. fold (invert s).
    rewrite nrzi_decode_from_invert.
    f_equal. now destruct Hl as [-> | ->].
  - change (dm_decode_from LOW (invert s)
            = match dm_decode_from LOW s with
              | Ok r => Ok (flip_first r)
              | Raise e => Raise e
              end).
    destruct Hs as [|a s Ha Hs]; [reflexivity|].
    destruct s as [|b rest]; [reflexivity|].
    cbn [invert map]. fold (invert rest).
    rewrite !dm_decode_from_pair, dm_decode_from_invert.
    destruct (dm_decode_from b rest) as [r|e]; cbn [bind flip_first];
      [|reflexivity].
    f_equal. f_equal. now destruct Ha as [-> | ->].
Qed.

Lemma differential_decoders_under_inversion_witness :
  Forall is_high_or_low [HIGH; LOW; LOW; HIGH]
  /\ (NonReturnToZeroInverted.decode (invert [HIGH; LOW; LOW; HIGH])
      = flip_first (NonReturnToZeroInverted.decode [HIGH; LOW; LOW; HIGH])
      /\ DifferentialManchester.decode (invert [HIGH; LOW; LOW; HIGH])
         = match DifferentialManchester.decode [HIGH; LOW; LOW; HIGH] with
           | Ok r => Ok (flip_first r)
           | Raise e => Raise e
           end).
Proof.
  assert (Hs : Forall is_high_or_low [HIGH; LOW; LOW; HIGH])
    by (repeat constructor; unfold is_high_or_low, HIGH, LOW; lia).
  split; [exact Hs|].
  exact (differential_decoders_under_inversion [HIGH; LOW; LOW; HIGH] Hs).
Defined.

Lemma ami_scan_invert (s : list Z) :
  forall last_nonzero,
    BipolarAMI.has_violations_loop (option_map Z.opp last_nonzero) (invert s)
    = BipolarAMI.has_violations_loop last_nonzero s.
Proof.
  induction s as [|l s IH]; intros last; [reflexivity|].
  cbn [invert map BipolarAMI.has_violations_loop]. fold (invert s).
  replace (- l =? NO_LINE) with (l =? NO_LINE)
    by (unfold NO_LINE; destruct (Z.eqb_spec l 0), (Z.eqb_spec (- l) 0); lia).
  destruct (l =? NO_LINE); [apply IH|].
  destruct last as [p|]; cbn [option_map].
  - rewrite opp_eqb. destruct (l =? p); [reflexivity|].
    apply (IH (Some l)).
  - apply (IH (Some l)).
Qed.

(** X10. Inverting the polarity of the line complements every bit that
    NRZ-L decodes from a two-level signal and every bit that Manchester
    decodes from an encoding, while the Bipolar-AMI and Pseudoternary
    decoders and violation checks return the same on any sequence and on
    its inversion. *)
Theorem level_decoders_under_inversion (s b : list Z) :
  Forall is_high_or_low s -> bits b ->
  NonReturnToZeroLevel.decode (invert s)
  = complement (NonReturnToZeroLevel.decode s)
  /\ Manchester.decode (invert (Manchester.encode b)) = complement b
  /\ (forall t, BipolarAMI.decode (invert t) = BipolarAMI.decode t)
  /\ (forall t, Pseudoternary.decode (invert t) = Pseudoternary.decode t)
  /\ (forall t,
        BipolarAMI.has_violations (invert t) = BipolarAMI.has_violations t)
  /\ (forall t,
        Pseudoternary.has_violations (invert t)
        = Pseudoternary.has_violations t).
Proof.
  intros Hs Hb.
  assert (Hz : forall l, (- l =? NO_LINE) = (l =? NO_LINE)).
  { intros l. unfold NO_LINE.
    destruct (Z.eqb_spec l 0), (Z.eqb_spec (- l) 0); lia. }
  split; [|split; [|split; [|split; [|split]]]].
  - rewrite !nrzl_decode_map. unfold invert, complement. rewrite !map_map.
    induction Hs as [|l s Hl Hs IH]; [reflexivity|].
    cbn [map]. rewrite IH. now destruct Hl as [-> | ->].
  - rewrite manchester_encode_flat_map.
    induction b as [|x b IH]; [reflexivity|].
    bit_cases Hb; cbn [flat_map Z.eqb Pos.eqb app invert map complement];
      fold (invert (flat_map
                      (fun bit => if bit =? 1 then [LOW; HIGH]
                                  else [HIGH; LOW]) b));
      fold (complement b);
      rewrite manchester_decode_pair, IH by assumption; reflexivity.
  - intros t. rewrite !ami_decode_map. unfold invert. rewrite map_map.
    apply map_ext; intros l. now rewrite Hz.
  - intros t. rewrite !pseudoternary_decode_map. unfold invert.
    rewrite map_map. apply map_ext; intros l. now rewrite Hz.
  - intros t. apply (ami_scan_invert t None).
  - intros t. unfold Pseudoternary.has_violations.
    rewrite !has_violations_loop_same. apply (ami_scan_invert t None).
Qed.

Lemma level_decoders_under_inversion_witness :
  Forall is_high_or_low [LOW; HIGH; HIGH] /\ bits [1; 0; 0]
  /\ NonReturnToZeroLevel.decode (invert [LOW; HIGH; HIGH])
     = complement (NonReturnToZeroLevel.decode [LOW; HIGH; HIGH])
  /\ Manchester.decode (invert (Manchester.encode [1; 0; 0]))
     = complement [1; 0; 0].
Proof.
  assert (Hs : Forall is_high_or_low [LOW; HIGH; HIGH])
    by (repeat constructor; unfold is_high_or_low, HIGH, LOW; lia).
  assert (Hb : bits [1; 0; 0])
    by (repeat constructor; unfold is_bit; lia).
  pose proof (level_decoders_under_inversion
                [LOW; HIGH; HIGH] [1; 0; 0] Hs Hb) as H.
  split; [exact Hs | split; [exact Hb | split]].
  - exact (proj1 H).
  - exact (proj1 (proj2 H)).
Defined.

(** ** The DC component of an encoding *)

Lemma level_sum_app (s t : list Z) :
  level_sum (s ++ t) = level_sum s + level_sum t.
Proof.
  induction s as [|x s IH]; cbn [app level_sum fold_right]; [reflexivity|].
  fold (level_sum (s ++ t)). fold (level_sum s). rewrite IH. lia.
Qed.

Lemma level_sum_cons (x : Z) (s : list Z) :
  level_sum (x :: s) = x + level_sum s.
Proof. reflexivity. Qed.

Lemma ami_emit_sum (data : list Z) :
  forall s,
    is_high_or_low s ->
    level_sum (emit ami_next ami_out s data) = 0
    \/ level_sum (emit ami_next ami_out s data) = - s.
Proof.
  induction data as [|x data IH]; intros s Hs; [now left|].
  rewrite ami_emit_cons. destruct (x =? 1); rewrite level_sum_cons.
  - destruct (IH (toggle s) (toggle_high_or_low s)) as [-> | ->];
      rewrite (toggle_opp s Hs); [right | left]; lia.
  - destruct (IH s Hs) as [-> | ->]; [left | right]; reflexivity.
Qed.

Lemma pseudoternary_emit_sum (data : list Z) :
  forall s,
    is_high_or_low s ->
    level_sum (emit pseudoternary_next pseudoternary_out s data) = 0
    \/ level_sum (emit pseudoternary_next pseudoternary_out s data) = - s.
Proof.
  intros s Hs. rewrite pseudoternary_emit_complement.
  now apply ami_emit_sum.
Qed.

Lemma dm_emit_sum (data : list Z) :
  forall s, is_high_or_low s -> level_sum (emit dm_next dm_out s data) = 0.
Proof.
  induction data as [|x data IH]; intros s Hs; [reflexivity|].
  rewrite dm_emit_cons, !level_sum_cons, IH by apply toggle_high_or_low.
  assert (Hf : is_high_or_low (dm_first_half s x)).
  { unfold dm_first_half. destruct (x =? 0);
      [apply toggle_high_or_low | exact Hs]. }
  rewrite (toggle_opp _ Hf). lia.
Qed.

(** X11. With [HIGH = 1], [LOW = -1] and [NO_LINE = 0], the levels of every
    Manchester and Differential Manchester encoding sum to 0, and the
    levels of every Bipolar-AMI and Pseudoternary encoding sum to 0 or 1:
    these codes carry no DC component, whatever list is encoded. *)
Theorem encodings_are_dc_balanced (data : list Z) :
  level_sum (Manchester.encode data) = 0
  /\ level_sum (DifferentialManchester.encode data) = 0
  /\ 0 <= level_sum (BipolarAMI.encode data) <= 1
  /\ 0 <= level_sum (Pseudoternary.encode data) <= 1.
Proof.
  split; [|split; [|split]].
  - rewrite manchester_encode_flat_map.
    induction data as [|x data IH]; [reflexivity|].
    cbn [flat_map]. rewrite level_sum_app, IH. now destruct (x =? 1).
  - rewrite dm_encode_emit. apply dm_emit_sum. now right.
  - rewrite ami_encode_emit.
    destruct (ami_emit_sum data LOW) as [-> | ->];
      [now right | | ]; unfold LOW; lia.
  - rewrite pseudoternary_encode_emit.
    destruct (pseudoternary_emit_sum data LOW) as [-> | ->];
      [now right | | ]; unfold LOW; lia.
Qed.

(** ** Encoding and decoding a concatenation *)

Section EmitApp.

Context {S A B : Type}.
Variable next : S -> A -> S.
Variable out : S -> A -> list B.

Lemma emit_app (xs ys : list A) :
  forall s,
    emit next out s (xs ++ ys)
    = emit next out s xs ++ emit next out (run next s xs) ys.
Proof.
  induction xs as [|x xs IH]; intros s; [reflexivity|].
  cbn [app emit run fold_left]. rewrite IH, <- app_assoc. reflexivity.
Qed.

End EmitApp.

(** X12. Encoding is incremental: NRZ-L and Manchester encode a
    concatenation to the concatenation of the encodings, and for the four
    stateful encoders the encoding of [b1 ++ b2] is the encoding of [b1]
    followed by one level (two for Differential Manchester) per element of
    [b2]. *)
Theorem encode_extends_prefix (b1 b2 : list Z) :
  NonReturnToZeroLevel.encode (b1 ++ b2)
  = NonReturnToZeroLevel.encode b1 ++ NonReturnToZeroLevel.encode b2
  /\ Manchester.encode (b1 ++ b2)
     = Manchester.encode b1 ++ Manchester.encode b2
  /\ (exists rest,
        NonReturnToZeroInverted.encode (b1 ++ b2)
        = NonReturnToZeroInverted.encode b1 ++ rest
        /\ length rest = length b2)
  /\ (exists rest,
        BipolarAMI.encode (b1 ++ b2) = BipolarAMI.encode b1 ++ rest
        /\ length rest = length b2)
  /\ (exists rest,
        Pseudoternary.encode (b1 ++ b2) = Pseudoternary.encode b1 ++ rest
        /\ length rest = length b2)
  /\ (exists rest,
        DifferentialManchester.encode (b1 ++ b2)
        = DifferentialManchester.encode b1 ++ rest
        /\ length rest = (2 * length b2)%nat).
Proof.
  split; [|split; [|split; [|split; [|split]]]].
  - rewrite !nrzl_encode_map. apply map_app.
  - rewrite !manchester_encode_flat_map. apply flat_map_app.
  - rewrite !nrzi_encode_emit, emit_app. eexists. split; [reflexivity|].
    rewrite (emit_length _ _ 1%nat); [lia | reflexivity].
  - rewrite !ami_encode_emit, emit_app. eexists. split; [reflexivity|].
    rewrite (emit_length _ _ 1%nat); [lia|].
    intros s x; unfold ami_out; now destruct (x =? 1).
  - rewrite !pseudoternary_encode_emit, emit_app.
    eexists. split; [reflexivity|].
    rewrite (emit_length _ _ 1%nat); [lia|].
    intros s x; unfold pseudoternary_out; now destruct (x =? 0).
  - rewrite !dm_encode_emit, emit_app. eexists. split; [reflexivity|].
    rewrite (emit_length _ _ 2%nat); reflexivity.
Qed.


Lemma last_cons_default (A : Type) (l : list A) :
  forall x d, last (x :: l) d = last l x.
Proof.
  induction l as [|y l IH]; intros x d; [reflexivity|].
  change (last (x :: y :: l) d) with (last (y :: l) d).
  now rewrite (IH y d), (IH y x).
Qed.




(** ** Violations persist, and single pulse errors are caught *)

Lemma pulses_app (s t : list Z) : pulses (s ++ t) = pulses s ++ pulses t.
Proof. apply filter_app. Qed.

Lemma pulses_idempotent (s : list Z) : pulses (pulses s) = pulses s.
Proof.
  induction s as [|l s IH]; [reflexivity|].
  cbn [pulses filter]. fold (pulses s).
  destruct (negb (l =? NO_LINE)) eqn:E; [|exact IH].
  cbn [pulses filter]. fold (pulses (pulses s)). now rewrite E, IH.
Qed.

Lemma repeated_pulse_app_l (p q : list Z) :
  repeated_pulse p -> repeated_pulse (p ++ q).
Proof.
  intros [before [x [after ->]]]. exists before, x, (after ++ q).
  now rewrite <- app_assoc.
Qed.

Lemma repeated_pulse_app_r (p q : list Z) :
  repeated_pulse q -> repeated_pulse (p ++ q).
Proof.
  intros [before [x [after ->]]]. exists (p ++ before), x, after.
  now rewrite <- app_assoc.
Qed.

Lemma ami_has_violations_spec (s : list Z) :
  BipolarAMI.has_violations s = true <-> repeated_pulse (pulses s).
Proof. apply (ami_has_violations_loop_spec s None). Qed.

(** X14. A bipolar violation persists when the signal is extended at
    either end, and removing the [NO_LINE] elements of a signal does not
    change the verdict of [has_violations]. *)
Theorem has_violations_persists (s t : list Z) :
  (BipolarAMI.has_violations s = true \/ BipolarAMI.has_violations t = true ->
   BipolarAMI.has_violations (s ++ t) = true)
  /\ BipolarAMI.has_violations (pulses s) = BipolarAMI.has_violations s.
Proof.
  split.
  - rewrite !ami_has_violations_spec, pulses_app.
    intros [H|H]; [now apply repeated_pulse_app_l
                  | now apply repeated_pulse_app_r].
  - destruct (BipolarAMI.has_violations s) eqn:E.
    + apply ami_has_violations_spec. rewrite pulses_idempotent.
      now apply ami_has_violations_spec.
    + destruct (BipolarAMI.has_violations (pulses s)) eqn:E';
        [|reflexivity].
      apply ami_has_violations_spec in E'. rewrite pulses_idempotent in E'.
      apply ami_has_violations_spec in E'. congruence.
Qed.

Lemma has_violations_persists_witness :
  (BipolarAMI.has_violations [HIGH; NO_LINE; HIGH] = true
   \/ BipolarAMI.has_violations [LOW] = true)
  /\ BipolarAMI.has_violations ([HIGH; NO_LINE; HIGH] ++ [LOW]) = true.
Proof.
  assert (H : BipolarAMI.has_violations [HIGH; NO_LINE; HIGH] = true
              \/ BipolarAMI.has_violations [LOW] = true)
    by (left; reflexivity).
  split; [exact H|].
  exact (proj1 (has_violations_persists [HIGH; NO_LINE; HIGH] [LOW]) H).
Defined.

Lemma not_repeated_neighbours (p q : list Z) (a b : Z) :
  ~ repeated_pulse (p ++ a :: b :: q) -> a <> b.
Proof. intros H ->. apply H. now exists p, b, q. Qed.

Lemma pulses_high_or_low (s : list Z) :
  levels s -> Forall is_high_or_low (pulses s).
Proof.
  intros Hs. apply Forall_forall. intros l Hl.
  apply filter_In in Hl as [Hin Hnz].
  pose proof (proj1 (Forall_forall _ _) Hs l Hin) as [-> | [-> | ->]];
    [now left | now right | discriminate].
Qed.

Lemma opposite_of_neq (a b : Z) :
  is_high_or_low a -> is_high_or_low b -> a <> b -> b = - a.
Proof. intros [-> | ->] [-> | ->] N; try reflexivity; now contradiction N. Qed.

(** X15. In a level sequence without bipolar violation, a single pulse
    error is caught by [has_violations]: inverting the polarity of one
    pulse gives a violation as soon as the signal holds another pulse, and
    erasing one pulse (replacing it by [NO_LINE]) gives a violation as soon
    as pulses stand on both sides of it. *)
Theorem single_pulse_error_detected (s1 s2 : list Z) (x : Z) :
  levels (s1 ++ x :: s2) ->
  BipolarAMI.has_violations (s1 ++ x :: s2) = false ->
  x <> NO_LINE ->
  (pulses s1 <> [] \/ pulses s2 <> [] ->
   BipolarAMI.has_violations (s1 ++ (- x) :: s2) = true)
  /\ (pulses s1 <> [] /\ pulses s2 <> [] ->
      BipolarAMI.has_violations (s1 ++ NO_LINE :: s2) = true).
Proof.
  intros Hl Hv Hx.
  assert (Hnr : ~ repeated_pulse (pulses s1 ++ x :: pulses s2)).
  { intros H. apply Bool.not_true_iff_false in Hv. apply Hv.
    apply ami_has_violations_spec. rewrite pulses_app.
    cbn [pulses filter]. fold (pulses s2).
    now rewrite (proj2 (Z.eqb_neq x NO_LINE) Hx). }
  pose proof (pulses_high_or_low _ Hl) as Hb.
  rewrite pulses_app in Hb. cbn [pulses filter] in Hb. fold (pulses s2) in Hb.
  rewrite (proj2 (Z.eqb_neq x NO_LINE) Hx) in Hb. cbn [negb] in Hb.
  apply Forall_app in Hb as [Hb1 Hb2].
  inversion Hb2 as [|? ? Hbx Hb2']; subst.
  assert (Hnx : (- x =? NO_LINE) = false).
  { apply Z.eqb_neq. unfold NO_LINE in *. lia. }
  split.
  - intros Hother. apply ami_has_violations_spec.
    rewrite pulses_app. cbn [pulses filter]. fold (pulses s2).
    rewrite Hnx. cbn [negb].
    destruct (pulses s2) as [|y r] eqn:E2.
    + destruct Hother as [H1|H2]; [|now contradiction H2].
      destruct (exists_last H1) as [q [y Eq]]. rewrite Eq in *.
      rewrite <- app_assoc in Hnr. cbn [app] in Hnr.
      apply not_repeated_neighbours in Hnr.
      apply Forall_app in Hb1 as [_ Hy]. inversion Hy as [|? ? Hy' _]; subst.
      assert (E : y = - x).
      { destruct Hy' as [-> | ->], Hbx as [-> | ->];
          try reflexivity; now contradiction Hnr. }
      rewrite E, <- app_assoc. now exists q, (- x), [].
    + pose proof (not_repeated_neighbours _ _ _ _ Hnr) as N.
      inversion Hb2' as [|? ? Hy _]; subst.
      rewrite (opposite_of_neq x y Hbx Hy N).
      now exists (pulses s1), (- x), r.
  - intros [H1 H2]. apply ami_has_violations_spec.
    rewrite pulses_app. cbn [pulses filter NO_LINE Z.eqb negb].
    fold (pulses s2).
    destruct (pulses s2) as [|y2 r] eqn:E2; [now contradiction H2|].
    destruct (exists_last H1) as [q [y1 Eq]]. rewrite Eq in *.
    pose proof (not_repeated_neighbours _ _ _ _ Hnr) as N2.
    rewrite <- app_assoc in Hnr. cbn [app] in Hnr.
    apply not_repeated_neighbours in Hnr.
    apply Forall_app in Hb1 as [_ Hy]. inversion Hy as [|? ? Hy1 _]; subst.
    inversion Hb2' as [|? ? Hy2 _]; subst.
    rewrite (opposite_of_neq x y2 Hbx Hy2 N2).
    assert (E : y1 = - x).
    { destruct Hy1 as [-> | ->], Hbx as [-> | ->];
        try reflexivity; now contradiction Hnr. }
    rewrite E, <- app_assoc. now exists q, (- x), r.
Qed.

Lemma single_pulse_error_detected_witness :
  levels ([HIGH; NO_LINE] ++ LOW :: [NO_LINE; HIGH])
  /\ BipolarAMI.has_violations ([HIGH; NO_LINE] ++ LOW :: [NO_LINE; HIGH])
     = false
  /\ LOW <> NO_LINE
  /\ (pulses [HIGH; NO_LINE] <> [] /\ pulses [NO_LINE; HIGH] <> [])
  /\ BipolarAMI.has_violations ([HIGH; NO_LINE] ++ (- LOW) :: [NO_LINE; HIGH])
     = true
  /\ BipolarAMI.has_violations
       ([HIGH; NO_LINE] ++ NO_LINE :: [NO_LINE; HIGH]) = true.
Proof.
  assert (Hl : levels ([HIGH; NO_LINE] ++ LOW :: [NO_LINE; HIGH]))
    by (repeat constructor; unfold is_level, HIGH, LOW, NO_LINE; lia).
  assert (Hv : BipolarAMI.has_violations
                 ([HIGH; NO_LINE] ++ LOW :: [NO_LINE; HIGH]) = false)
    by reflexivity.
  assert (Hx : LOW <> NO_LINE) by discriminate.
  assert (H1 : pulses [HIGH; NO_LINE] <> []) by discriminate.
  assert (H2 : pulses [NO_LINE; HIGH] <> []) by discriminate.
  pose proof (single_pulse_error_detected
                [HIGH; NO_LINE] [NO_LINE; HIGH] LOW Hl Hv Hx) as H.
  split; [exact Hl | split; [exact Hv | split; [exact Hx | split;
    [exact (conj H1 H2) | split]]]].
  - exact (proj1 H (or_introl H1)).
  - exact (proj2 H (conj H1 H2)).
Defined.

(** * Carrier modulation: [digital_to_analog.py] *)

Lemma read_one_else_zero_bits (b : list Z) :
  bits b -> map read_one_else_zero b = b.
Proof.
  induction 1 as [|x b Hx Hb IH]; [reflexivity|].
  cbn [map]. rewrite IH. now destruct Hx as [-> | ->].
Qed.

Section Modulation.

Context {num : Type} `{Number num}.

Lemma ask_modulate_map (self : ASK.t num) (data : list Z) :
  ASK.modulate self data
  = map (fun bit =>
           if bit =? 1
           then Sinusoid.make (ASK.A_one self) (ASK.f_c self)
                              float_zero float_zero
           else Sinusoid.make (ASK.A_zero self) (ASK.f_c self)
                              float_zero float_zero)
        data.
Proof.
  unfold ASK.modulate.
  rewrite (fold_result _ _
    (fun bit =>
       [if bit =? 1
        then Sinusoid.make (ASK.A_one self) (ASK.f_c self)
                           float_zero float_zero
        else Sinusoid.make (ASK.A_zero self) (ASK.f_c self)
                           float_zero float_zero])).
  - apply flat_map_single.
  - reflexivity.
Qed.

Lemma ask_demodulate_map (self : ASK.t num)
    (signal_stream : list (Sinusoid.t num)) :
  ASK.demodulate self signal_stream
  = map (fun wave =>
           if num_gt (Sinusoid.A wave) (ASK.threshold self) then 1 else 0)
        signal_stream.
Proof.
  unfold ASK.demodulate.
  rewrite (fold_result _ _
    (fun wave =>
       [if num_gt (Sinusoid.A wave) (ASK.threshold self) then 1 else 0])).
  - apply flat_map_single.
  - intros r wave. unfold ASK.demodulate_body.
    now destruct (num_gt (Sinusoid.A wave) (ASK.threshold self)).
Qed.

(** X16. [ASK.demodulate(ASK.modulate(bits))] returns [bits] for every bit
    sequence, provided the amplitude [A_one] is above the threshold
    [(A_one + A_zero) / 2] and [A_zero] is not. *)
Theorem ask_roundtrip (self : ASK.t num) (b : list Z) :
  num_gt (ASK.A_one self) (ASK.threshold self) = true ->
  num_gt (ASK.A_zero self) (ASK.threshold self) = false ->
  bits b ->
  ASK.demodulate self (ASK.modulate self b) = b.
Proof.
  intros H1 H0 Hb.
  rewrite ask_modulate_map, ask_demodulate_map, map_map.
  rewrite <- (read_one_else_zero_bits b Hb) at 2.
  apply map_ext; intros bit. unfold read_one_else_zero.
  destruct (bit =? 1); cbn [Sinusoid.A]; [now rewrite H1 | now rewrite H0].
Qed.

Lemma bfsk_modulate_map (self : BFSK.t num) (data : list Z) :
  BFSK.modulate self data
  = map (fun bit =>
           if bit =? 1
           then Sinusoid.make (BFSK.A self) (BFSK.f_one self)
                              float_zero float_zero
           else Sinusoid.make (BFSK.A self) (BFSK.f_zero self)
                              float_zero float_zero)
        data.
Proof.
  unfold BFSK.modulate.
  rewrite (fold_result _ _
    (fun bit =>
       [if bit =? 1
        then Sinusoid.make (BFSK.A self) (BFSK.f_one self)
                           float_zero float_zero
        else Sinusoid.make (BFSK.A self) (BFSK.f_zero self)
                           float_zero float_zero])).
  - apply flat_map_single.
  - reflexivity.
Qed.

Lemma bfsk_demodulate_map (self : BFSK.t num)
    (signal_stream : list (Sinusoid.t num)) :
  BFSK.demodulate self signal_stream
  = map (fun wave =>
           if num_eqb (Sinusoid.f wave) (BFSK.f_one self) then 1 else 0)
        signal_stream.
Proof.
  unfold BFSK.demodulate.
  rewrite (fold_result _ _
    (fun wave =>
       [if num_eqb (Sinusoid.f wave) (BFSK.f_one self) then 1 else 0])).
  - apply flat_map_single.
  - intros r wave. unfold BFSK.demodulate_body.
    now destruct (num_eqb (Sinusoid.f wave) (BFSK.f_one self)).
Qed.

(** X17. [BFSK.demodulate(BFSK.modulate(bits))] returns [bits] for every
    bit sequence, provided [f_one == f_one] holds (it is not a NaN) and
    [f_zero == f_one] does not. *)
Theorem bfsk_roundtrip (self : BFSK.t num) (b : list Z) :
  num_eqb (BFSK.f_one self) (BFSK.f_one self) = true ->
  num_eqb (BFSK.f_zero self) (BFSK.f_one self) = false ->
  bits b ->
  BFSK.demodulate self (BFSK.modulate self b) = b.
Proof.
  intros H1 H0 Hb.
  rewrite bfsk_modulate_map, bfsk_demodulate_map, map_map.
  rewrite <- (read_one_else_zero_bits b Hb) at 2.
  apply map_ext; intros bit. unfold read_one_else_zero.
  destruct (bit =? 1); cbn [Sinusoid.f]; [now rewrite H1 | now rewrite H0].
Qed.

(** X19. When [f_zero == f_one] holds, [BFSK.demodulate] returns 1 for
    every wave that [BFSK.modulate] produced, whatever the bits were. *)
Theorem bfsk_equal_frequencies (self : BFSK.t num) (data : list Z) :
  num_eqb (BFSK.f_one self) (BFSK.f_one self) = true ->
  num_eqb (BFSK.f_zero self) (BFSK.f_one self) = true ->
  BFSK.demodulate self (BFSK.modulate self data) = map (fun _ => 1) data.
Proof.
  intros H1 H0.
  rewrite bfsk_modulate_map, bfsk_demodulate_map, map_map.
  apply map_ext; intros bit.
  destruct (bit =? 1); cbn [Sinusoid.f]; [now rewrite H1 | now rewrite H0].
Qed.

Lemma bpsk_modulate_map (self : BPSK.t num) (data : list Z) :
  BPSK.modulate self data
  = map (fun bit =>
           if bit =? 1
           then Sinusoid.make (BPSK.A self) (BPSK.f_c self)
                              float_zero float_zero
           else Sinusoid.make (BPSK.A self) (BPSK.f_c self)
                              np_pi float_zero)
        data.
Proof.
  unfold BPSK.modulate.
  rewrite (fold_result _ _
    (fun bit =>
       [if bit =? 1
        then Sinusoid.make (BPSK.A self) (BPSK.f_c self)
                           float_zero float_zero
        else Sinusoid.make (BPSK.A self) (BPSK.f_c self)
                           np_pi float_zero])).
  - apply flat_map_single.
  - reflexivity.
Qed.

Lemma bpsk_demodulate_map (self : BPSK.t num)
    (signal_stream : list (Sinusoid.t num)) :
  BPSK.demodulate self signal_stream
  = map (fun wave =>
           if num_lt (num_abs (Sinusoid.phi wave)) float_tenth
           then 1 else 0)
        signal_stream.
Proof.
  unfold BPSK.demodulate.
  rewrite (fold_result _ _
    (fun wave =>
       [if num_lt (num_abs (Sinusoid.phi wave)) float_tenth then 1 else 0])).
  - apply flat_map_single.
  - intros r wave. unfold BPSK.demodulate_body.
    now destruct (num_lt (num_abs (Sinusoid.phi wave)) float_tenth).
Qed.

(** X18. [BPSK.demodulate(BPSK.modulate(bits))] returns [bits] for every
    bit sequence, in any arithmetic where [abs(0.0) < 0.1] holds and
    [abs(np.pi) < 0.1] does not. *)
Theorem bpsk_roundtrip (self : BPSK.t num) (b : list Z) :
  num_lt (num_abs float_zero) float_tenth = true ->
  num_lt (num_abs np_pi) float_tenth = false ->
  bits b ->
  BPSK.demodulate self (BPSK.modulate self b) = b.
Proof.
  intros H1 H0 Hb.
  rewrite bpsk_modulate_map, bpsk_demodulate_map, map_map.
  rewrite <- (read_one_else_zero_bits b Hb) at 2.
  apply map_ext; intros bit. unfold read_one_else_zero.
  destruct (bit =? 1); cbn [Sinusoid.phi]; [now rewrite H1 | now rewrite H0].
Qed.

End Modulation.

Lemma ask_roundtrip_witness :
  num_gt (ASK.A_one ask_default) (ASK.threshold ask_default) = true
  /\ num_gt (ASK.A_zero ask_default) (ASK.threshold ask_default) = false
  /\ bits [1; 0; 0; 1]
  /\ ASK.demodulate ask_default (ASK.modulate ask_default [1; 0; 0; 1])
     = [1; 0; 0; 1].
Proof.
  assert (H1 : num_gt (ASK.A_one ask_default) (ASK.threshold ask_default)
               = true) by reflexivity.
  assert (H0 : num_gt (ASK.A_zero ask_default) (ASK.threshold ask_default)
               = false) by reflexivity.
  assert (Hb : bits [1; 0; 0; 1])
    by (repeat constructor; unfold is_bit; lia).
  split; [exact H1 | split; [exact H0 | split; [exact Hb|]]].
  exact (ask_roundtrip ask_default [1; 0; 0; 1] H1 H0 Hb).
Defined.

Lemma bfsk_roundtrip_witness :
  num_eqb (BFSK.f_one bfsk_default) (BFSK.f_one bfsk_default) = true
  /\ num_eqb (BFSK.f_zero bfsk_default) (BFSK.f_one bfsk_default) = false
  /\ bits [0; 1; 1; 0]
  /\ BFSK.demodulate bfsk_default (BFSK.modulate bfsk_default [0; 1; 1; 0])
     = [0; 1; 1; 0].
Proof.
  assert (H1 : num_eqb (BFSK.f_one bfsk_default) (BFSK.f_one bfsk_default)
               = true) by reflexivity.
  assert (H0 : num_eqb (BFSK.f_zero bfsk_default) (BFSK.f_one bfsk_default)
               = false) by reflexivity.
  assert (Hb : bits [0; 1; 1; 0])
    by (repeat constructor; unfold is_bit; lia).
  split; [exact H1 | split; [exact H0 | split; [exact Hb|]]].
  exact (bfsk_roundtrip bfsk_default [0; 1; 1; 0] H1 H0 Hb).
Defined.

Lemma bfsk_equal_frequencies_witness :
  num_eqb (BFSK.f_one (BFSK.make 1000 1000 1)%float)
          (BFSK.f_one (BFSK.make 1000 1000 1)%float) = true
  /\ num_eqb (BFSK.f_zero (BFSK.make 1000 1000 1)%float)
             (BFSK.f_one (BFSK.make 1000 1000 1)%float) = true
  /\ BFSK.demodulate (BFSK.make 1000 1000 1)%float
       (BFSK.modulate (BFSK.make 1000 1000 1)%float [0; 1; 0])
     = map (fun _ => 1) [0; 1; 0].
Proof.
  assert (H1 : num_eqb (BFSK.f_one (BFSK.make 1000 1000 1)%float)
                       (BFSK.f_one (BFSK.make 1000 1000 1)%float) = true)
    by reflexivity.
  split; [exact H1 | split; [exact H1|]].
  exact (bfsk_equal_frequencies (BFSK.make 1000 1000 1)%float [0; 1; 0]
           H1 H1).
Defined.

Lemma bpsk_roundtrip_witness :
  num_lt (num_abs (float_zero : float)) float_tenth = true
  /\ num_lt (num_abs (np_pi : float)) float_tenth = false
  /\ bits [1; 1; 0; 1]
  /\ BPSK.demodulate bpsk_default (BPSK.modulate bpsk_default [1; 1; 0; 1])
     = [1; 1; 0; 1].
Proof.
  assert (H1 : num_lt (num_abs (float_zero : float)) float_tenth = true)
    by reflexivity.
  assert (H0 : num_lt (num_abs (np_pi : float)) float_tenth = false)
    by reflexivity.
  assert (Hb : bits [1; 1; 0; 1])
    by (repeat constructor; unfold is_bit; lia).
  split; [exact H1 | split; [exact H0 | split; [exact Hb|]]].
  exact (bpsk_roundtrip bpsk_default [1; 1; 0; 1] H1 H0 Hb).
Defined.

(** * Quantisers: [analog_to_digital.py] *)

Section Quantisers.

Context {num : Type} `{Number num}.

Lemma pcm_encode_none (self : PCM.t num) (samples : list num) :
  fold_left (PCM.encode_body self) samples None = None.
Proof. induction samples as [|x samples IH]; [reflexivity | exact IH]. Qed.

Lemma pcm_encode_loop (self : PCM.t num) (samples : list num) :
  1 <= PCM.num_levels self ->
  forall acc r,
    fold_left (PCM.encode_body self) samples (Some acc) = Some r ->
    exists new,
      r = acc ++ new
      /\ length new = length samples
      /\ Forall (fun level => 0 <= level <= PCM.num_levels self - 1) new.
Proof.
  intros Hn. induction samples as [|x samples IH]; intros acc r Hr.
  - injection Hr as <-. exists []. rewrite app_nil_r. repeat split.
    constructor.
  - cbn [fold_left] in Hr. unfold PCM.encode_body at 2 in Hr.
    destruct (num_int_div (num_sub x (PCM.v_min self)) (PCM.step_size self))
      as [k|]; [|now rewrite pcm_encode_none in Hr].
    destruct (IH _ _ Hr) as [new [-> [Hlen Hall]]].
    exists (Z.max 0 (Z.min (PCM.num_levels self - 1) k) :: new).
    rewrite <- app_assoc. repeat split.
    + cbn [length]. now rewrite Hlen.
    + constructor; [lia | exact Hall].
Qed.

(** X20. Whenever [PCM.encode] returns, it returns one level index per
    sample and every index lies in [0 .. 2**n_bits - 1], however far the
    samples are from the range [v_min .. v_max]. *)
Theorem pcm_encode_in_range (n_bits : nat) (v_min v_max : num)
    (samples : list num) (r : list Z) :
  PCM.encode (PCM.init n_bits v_min v_max) samples = Some r ->
  length r = length samples
  /\ Forall (fun level => 0 <= level <= 2 ^ Z.of_nat n_bits - 1) r.
Proof.
  intros Hr.
  assert (Hn : 1 <= PCM.num_levels (PCM.init n_bits v_min v_max)).
  { cbn [PCM.init PCM.num_levels].
    pose proof (Z.pow_pos_nonneg 2 (Z.of_nat n_bits)). lia. }
  destruct (pcm_encode_loop _ samples Hn [] r Hr) as [new [-> [Hlen Hall]]].
  split; [exact Hlen | exact Hall].
Qed.

Lemma fold_state_run (S A B : Type) (next : S -> A -> S)
    (out : S -> A -> list B) (body : S * list B -> A -> S * list B) :
  (forall s r x, body (s, r) x = (next s x, r ++ out s x)) ->
  forall xs s r, fst (fold_left body xs (s, r)) = run next s xs.
Proof.
  intros Hbody xs; induction xs as [|x xs IH]; intros s r; [reflexivity|].
  cbn [fold_left run]. rewrite Hbody. apply IH.
Qed.

Lemma delta_encode_emit (self : DM.t num) (samples : list num) :
  DM.encode self samples
  = emit (delta_encode_next self)
         (fun current sample => [delta_encode_bit current sample])
         float_zero samples.
Proof.
  unfold DM.encode.
  rewrite (fold_state_result (delta_encode_next self)
             (fun current sample => [delta_encode_bit current sample])).
  - reflexivity.
  - intros c r x.
    unfold DM.encode_body, delta_encode_next, delta_encode_bit.
    now destruct (num_gt x c).
Qed.

Lemma delta_staircase_run (self : DM.t num) (samples : list num) :
  DM.staircase self samples = run (delta_encode_next self) float_zero samples.
Proof.
  unfold DM.staircase.
  apply (fold_state_run _ _ _ (delta_encode_next self)
           (fun current sample => [delta_encode_bit current sample])).
  intros c r x.
  unfold DM.encode_body, delta_encode_next, delta_encode_bit.
  now destruct (num_gt x c).
Qed.

Lemma delta_decode_emit (self : DM.t num) (stream : list Z) :
  DM.decode self stream
  = emit (delta_decode_next self)
         (fun current bit => [delta_decode_next self current bit])
         float_zero stream.
Proof.
  unfold DM.decode.
  now rewrite (fold_result_state (delta_decode_next self)
                 (fun current bit => [delta_decode_next self current bit])).
Qed.

Lemma delta_decode_tracks_from (self : DM.t num) (samples : list num) :
  forall c,
    last (emit (delta_decode_next self)
               (fun current bit => [delta_decode_next self current bit])
               c
               (emit (delta_encode_next self)
                     (fun current sample => [delta_encode_bit current sample])
                     c samples))
         c
    = run (delta_encode_next self) c samples.
Proof.
  induction samples as [|x samples IH]; intros c; [reflexivity|].
  cbn [emit app run fold_left].
  assert (E : delta_decode_next self c (delta_encode_bit c x)
              = delta_encode_next self c x).
  { unfold delta_decode_next, delta_encode_bit, delta_encode_next.
    now destruct (num_gt x c). }
  rewrite E, last_cons_default. apply IH.
Qed.

(** X21. [DM.encode] returns one bit, 0 or 1, per sample, and
    [DM.decode] rebuilds from these bits the staircase the encoder tracked:
    it returns one value per sample, the last of which is the encoder's
    [current_staircase_value] at the end of its loop ([0.0] for no
    sample). *)
Theorem delta_decode_tracks_encoder (self : DM.t num) (samples : list num) :
  bits (DM.encode self samples)
  /\ length (DM.encode self samples) = length samples
  /\ length (DM.decode self (DM.encode self samples)) = length samples
  /\ last (DM.decode self (DM.encode self samples)) float_zero
     = DM.staircase self samples.
Proof.
  split; [|split; [|split]].
  - rewrite delta_encode_emit. generalize (float_zero : num).
    induction samples as [|x samples IH]; intros c; [constructor|].
    cbn [emit app]. constructor; [|apply IH].
    unfold delta_encode_bit. destruct (num_gt x c); [now right | now left].
  - rewrite delta_encode_emit, (emit_length _ _ 1%nat); [lia | reflexivity].
  - rewrite delta_decode_emit, (emit_length _ _ 1%nat); [|reflexivity].
    rewrite delta_encode_emit, (emit_length _ _ 1%nat); [lia | reflexivity].
  - rewrite delta_decode_emit, delta_encode_emit, delta_staircase_run.
    apply delta_decode_tracks_from.
Qed.

End Quantisers.

Lemma pcm_encode_in_range_witness :
  PCM.encode (PCM.init 3 (-1)%float 1%float)
             [0.5; -5; 7; 0.75]%float = Some [6; 0; 7; 7]
  /\ length [6; 0; 7; 7]%Z = length [0.5; -5; 7; 0.75]%float
  /\ Forall (fun level => 0 <= level <= 2 ^ Z.of_nat 3 - 1) [6; 0; 7; 7].
Proof.
  assert (Hr : PCM.encode (PCM.init 3 (-1)%float 1%float)
                 [0.5; -5; 7; 0.75]%float = Some [6; 0; 7; 7])
    by (vm_compute; reflexivity).
  split; [exact Hr|].
  exact (pcm_encode_in_range 3 (-1)%float 1%float
           [0.5; -5; 7; 0.75]%float [6; 0; 7; 7] Hr).
Defined.
